(** * RoboEye: vision based object tracking with target navigation

    A shallow embedding of [main.py].  The script is one loop over camera
    frames; every iteration

      - mirrors the frame and converts it to HSV,
      - walks the colour table in order, builds and cleans one mask per
        colour, and accepts the largest contour when its area exceeds 800,
      - derives the navigation instruction towards the current target, and
      - replaces the target once it is reached and the cooldown has passed.

    The Python module-level variables become the record [globals]; the two
    sources of non-determinism the script reads ([random.randint] and
    [time.time]) become tapes in the record [world].  An uncaught Python
    exception ends the process and is the [Raise] outcome of the monad
    [prog].  Wall-clock readings are binary64 numbers, as in Python. *)

From Stdlib Require Import ZArith QArith List String Bool Lia Floats.
Import ListNotations.

Local Open Scope Z_scope.

(* ------------------------------------------------------------------ *)
(** * Process state, exceptions and the program monad *)

(** The exceptions the script can die from: [ValueError] is raised by
    [random.randint] on an empty range, [CvError] is [cv2.error], and
    [AttributeError] is raised when an attribute is read off [None]. *)
Inductive exn : Type :=
| ValueError
| CvError
| AttributeError.

(** Module-level variables of the script (lines 35-42, 53).  The names
    [frame_width] and [frame_height] are unbound until the first frame
    binds them; the first iteration always does so before any read, so they
    are plain fields here. *)
Record globals : Type := Globals {
  initialized : bool;
  target : option (Z * Z);
  target_reached_time : float;
  frame_width : Z;
  frame_height : Z
}.

(** What the script reads from outside: the entropy behind
    [random.randint] and the successive readings of [time.time()]. *)
Record world : Type := World {
  entropy : nat -> Z;
  draws : nat;
  wall_clock : nat -> float;
  clock_reads : nat
}.

Record state : Type := State {
  glob : globals;
  env : world
}.

Inductive outcome (A : Type) : Type :=
| Ok (a : A) (st : state)
| Raise (e : exn).
Arguments Ok {A} a st.
Arguments Raise {A} e.

Definition prog (A : Type) : Type := state -> outcome A.

Definition ret {A : Type} (a : A) : prog A := fun st => Ok a st.

Definition bind {A B : Type} (c : prog A) (k : A -> prog B) : prog B :=
  fun st =>
    match c st with
    | Ok a st' => k a st'
    | Raise e => Raise e
    end.

Definition raise {A : Type} (e : exn) : prog A := fun _ => Raise e.

Notation "x <- c ;; k" := (bind c (fun x => k))
  (at level 61, c at next level, right associativity).
Notation "c ;;; k" := (bind c (fun _ => k))
  (at level 61, right associativity).

Definition get_glob : prog globals := fun st => Ok (glob st) st.

Definition set_initialized (b : bool) : prog unit := fun st =>
  let g := glob st in
  Ok tt (State (Globals b (target g) (target_reached_time g)
                        (frame_width g) (frame_height g)) (env st)).

Definition set_target (t : Z * Z) : prog unit := fun st =>
  let g := glob st in
  Ok tt (State (Globals (initialized g) (Some t) (target_reached_time g)
                        (frame_width g) (frame_height g)) (env st)).

Definition set_target_reached_time (t : float) : prog unit := fun st =>
  let g := glob st in
  Ok tt (State (Globals (initialized g) (target g) t
                        (frame_width g) (frame_height g)) (env st)).

Definition set_frame_size (h w : Z) : prog unit := fun st =>
  let g := glob st in
  Ok tt (State (Globals (initialized g) (target g) (target_reached_time g)
                        w h) (env st)).

(** [time.time()]: the next reading of the wall clock. *)
Definition time_time : prog float := fun st =>
  let e := env st in
  Ok (wall_clock e (clock_reads e))
     (State (glob st)
            (World (entropy e) (draws e) (wall_clock e) (S (clock_reads e)))).

(** [random.randint(a, b)]: a value of the closed range [a..b], picked by
    the next entropy word; [ValueError] when the range is empty. *)
Definition randint (a b : Z) : prog Z := fun st =>
  if b <? a then Raise ValueError
  else
    let e := env st in
    Ok (a + entropy e (draws e) mod (b - a + 1))
       (State (glob st)
              (World (entropy e) (S (draws e)) (wall_clock e) (clock_reads e))).

(* ------------------------------------------------------------------ *)
(** * Target manager (lines 28-42) *)

Definition default_margin : Z := 50.
Definition target_radius : Z := 12.
Definition reach_threshold : Z := 30.

(** [target_reached_cooldown = 0.8]; the literal denotes the binary64
    number nearest to 0.8, written here in hexadecimal. *)
Definition target_reached_cooldown : float := 0x1.999999999999ap-1%float.

Definition new_random_target (w h : Z) (margin : Z) : prog (Z * Z) :=
  tx <- randint margin (w - margin) ;;
  ty <- randint margin (h - margin) ;;
  ret (tx, ty).

Definition initial_globals : globals :=
  Globals false None 0%float 0 0.

Definition initial_state (e : world) : state := State initial_globals e.

(** The gate of line 146, on one clock reading. *)
Definition cooldown_elapsed (now last : float) : bool :=
  (target_reached_cooldown <? now - last)%float.

(* ------------------------------------------------------------------ *)
(** * Navigator (lines 120-157) *)

(** Truth value of a Python string: non-empty. *)
Definition truthy (s : string) : bool :=
  match s with
  | EmptyString => false
  | String _ _ => true
  end.

(** [int(np.hypot(dx, dy))].  [np.hypot] works in binary64; for offsets in
    the range of pixel coordinates [dx*dx + dy*dy] is far below 2^53 and the
    truncated result is the integer square root, which is what is used
    here. *)
Definition hypot_int (dx dy : Z) : Z := Z.sqrt (dx * dx + dy * dy).

Definition horiz_of (dx : Z) : string :=
  if reach_threshold <? Z.abs dx
  then (if 0 <? dx then "Move Right"%string else "Move Left"%string)
  else ""%string.

Definition vert_of (dy : Z) : string :=
  if reach_threshold <? Z.abs dy
  then (if 0 <? dy then "Move Down"%string else "Move Up"%string)
  else ""%string.

Record nav_state : Type := Nav {
  nav_instruction : string;
  nav_delta : option (Z * Z);
  nav_dist : option Z
}.

(** Lines 146-150: the reach event.  The clock is read once for the test
    and once more for the new timestamp. *)
Definition register_reach : prog unit :=
  now <- time_time ;;
  g <- get_glob ;;
  if cooldown_elapsed now (target_reached_time g) then
    stamp <- time_time ;;
    set_target_reached_time stamp ;;;
    t <- new_random_target (frame_width g) (frame_height g) default_margin ;;
    set_target t
  else ret tt.

Definition navigate (centroid : option (Z * Z)) (tx ty : Z) : prog nav_state :=
  match centroid with
  | Some (cx, cy) =>
      let dx := tx - cx in
      let dy := ty - cy in
      let dist := hypot_int dx dy in
      let horiz := horiz_of dx in
      let vert := vert_of dy in
      if truthy horiz && truthy vert then
        ret (Nav (horiz ++ " & " ++ vert)%string (Some (dx, dy)) (Some dist))
      else if truthy horiz then
        ret (Nav horiz (Some (dx, dy)) (Some dist))
      else if truthy vert then
        ret (Nav vert (Some (dx, dy)) (Some dist))
      else
        register_reach ;;;
        ret (Nav "Target Reached"%string (Some (dx, dy)) (Some dist))
  | None => ret (Nav "No object to navigate"%string None None)
  end.

(* ------------------------------------------------------------------ *)
(** * Frames, masks and contours *)

(** A pixel is its three 8-bit channels; a frame is its rows, top to
    bottom.  A mask holds one 8-bit value per pixel. *)
Definition pixel : Type := (Z * Z * Z)%type.
Definition image : Type := list (list pixel).
Definition mask : Type := list (list Z).
Definition contour : Type := list (Z * Z).

Definition height (img : image) : Z := Z.of_nat (List.length img).

Definition width (img : image) : Z :=
  match img with
  | [] => 0
  | row :: _ => Z.of_nat (List.length row)
  end.

(** [frame.shape[:2]] is (rows, columns). *)
Definition shape (img : image) : Z * Z := (height img, width img).

Definition zero_sized (img : image) : bool :=
  (height img =? 0) || (width img =? 0).

(** The mirror image of a frame around the vertical axis. *)
Definition flip_horizontal (img : image) : image := map (@rev pixel) img.

(** [cv2.flip(frame, 1)]: the mirror image of a frame with pixels.  For an
    empty array OpenCV produces nothing and the call returns [None]. *)
Definition cv2_flip (img : image) : option image :=
  if zero_sized img then None else Some (flip_horizontal img).

(** A lower and an upper HSV bound. *)
Definition hsv_range : Type := (pixel * pixel)%type.

(** STEP 2 of the script: the colour table, in the order of the dict. *)
Definition colors : list (string * list hsv_range) :=
  [ ("Red"%string,    [ ((0, 120, 70),   (10, 255, 255));
                        ((170, 120, 70), (180, 255, 255)) ]);
    ("Blue"%string,   [ ((94, 80, 2),    (126, 255, 255)) ]);
    ("Green"%string,  [ ((35, 100, 100), (85, 255, 255)) ]);
    ("Yellow"%string, [ ((20, 100, 100), (30, 255, 255)) ]) ].

(** [cv2.inRange]: 255 where every channel lies within its bounds. *)
Definition in_range (p lo hi : pixel) : bool :=
  let '(p1, p2, p3) := p in
  let '(l1, l2, l3) := lo in
  let '(h1, h2, h3) := hi in
  (l1 <=? p1) && (p1 <=? h1) && (l2 <=? p2) && (p2 <=? h2)
  && (l3 <=? p3) && (p3 <=? h3).

Definition inRange (hsv : image) (lo hi : pixel) : mask :=
  map (map (fun p => if in_range p lo hi then 255 else 0)) hsv.

Fixpoint zip_with {A B C : Type} (f : A -> B -> C)
  (xs : list A) (ys : list B) : list C :=
  match xs, ys with
  | x :: xs', y :: ys' => f x y :: zip_with f xs' ys'
  | _, _ => []
  end.

(** [cv2.bitwise_or] of two masks of one size. *)
Definition bitwise_or (m1 m2 : mask) : mask :=
  zip_with (zip_with Z.lor) m1 m2.

(** Lines 66-71: the mask of one colour, [None] while no range was seen. *)
Fixpoint build_mask (hsv : image) (ranges : list hsv_range)
  (acc : option mask) : option mask :=
  match ranges with
  | [] => acc
  | (lower, upper) :: rest =>
      let part_mask := inRange hsv lower upper in
      build_mask hsv rest
        (Some (match acc with
               | None => part_mask
               | Some m => bitwise_or m part_mask
               end))
  end.

(** [cv2.contourArea], an OpenCV routine, after its documented definition:
    half the absolute value of the shoelace sum over the closed polygon
    (Green's formula), 0 for a contour without points.  The sum of integer
    points is an integer, so the area is a multiple of one half. *)
Fixpoint shoelace (prev : Z * Z) (pts : list (Z * Z)) : Z :=
  match pts with
  | [] => 0
  | p :: rest => (fst prev * snd p - snd prev * fst p) + shoelace p rest
  end.

Definition contourArea (c : contour) : Q :=
  match c with
  | [] => 0%Q
  | _ :: _ => Qmake (Z.abs (shoelace (last c (0, 0)) c)) 2
  end.

(** [cv2.boundingRect], an OpenCV routine, after its documented definition
    for integer points: the tight upright rectangle (x, y, w, h), both
    border columns and rows counted, and the empty rectangle for no
    points. *)
Definition list_min (d : Z) (l : list Z) : Z := fold_left Z.min l d.
Definition list_max (d : Z) (l : list Z) : Z := fold_left Z.max l d.

Definition boundingRect (c : contour) : Z * Z * Z * Z :=
  match c with
  | [] => (0, 0, 0, 0)
  | (x0, y0) :: rest =>
      let xmin := list_min x0 (map fst rest) in
      let xmax := list_max x0 (map fst rest) in
      let ymin := list_min y0 (map snd rest) in
      let ymax := list_max y0 (map snd rest) in
      (xmin, ymin, xmax - xmin + 1, ymax - ymin + 1)
  end.

Definition Qltb (a b : Q) : bool :=
  (Qnum a * QDen b <? Qnum b * QDen a)%Z.

(** [max(contours, key=cv2.contourArea)]: the first contour of largest
    area; a later one wins only when strictly larger. *)
Fixpoint max_by_area (best : contour) (rest : list contour) : contour :=
  match rest with
  | [] => best
  | c :: rest' =>
      if Qltb (contourArea best) (contourArea c)
      then max_by_area c rest'
      else max_by_area best rest'
  end.

Definition min_area : Q := 800%Q.

Record blob : Type := Blob {
  blob_rect : Z * Z * Z * Z;
  blob_centroid : Z * Z;
  blob_area : Q
}.

(** Lines 80-87: the blob of one cleaned mask, if any. *)
Definition select_blob (contours : list contour) : option blob :=
  match contours with
  | [] => None
  | c0 :: rest =>
      let c := max_by_area c0 rest in
      let area := contourArea c in
      if Qltb min_area area then
        let '(x, y, w, h) := boundingRect c in
        let cx := x + w / 2 in
        let cy := y + h / 2 in
        Some (Blob (x, y, w, h) (cx, cy) area)
      else None
  end.

(** Lines 96-101.  [cx < frame_width / 3] and [cx > 2 * frame_width / 3]
    compare an integer with a true quotient; they are stated here after
    multiplying through by 3. *)
Definition direction_of (cx fw : Z) : string :=
  if 3 * cx <? fw then "Move Left"%string
  else if 2 * fw <? 3 * cx then "Move Right"%string
  else "Move Forward"%string.

Record detection : Type := Detection {
  det_color : string;
  det_blob : blob;
  det_direction : string
}.

Record render : Type := Render {
  direction : string;
  detected_color : option string;
  detected_blob : option blob;
  navigation : nav_state;
  target_shown : Z * Z
}.

(** What one pass of the loop gets from [cap.read()] and, after the frame
    is shown, whether the key read by [cv2.waitKey] is [q]. *)
Inductive capture : Type :=
| NoFrame
| Frame (f : image) (quit : bool).

Inductive finish : Type :=
| CameraNotAccessible (st : state)
| QuitKey (st : state)
| FeedConsumed (st : state)
| Uncaught (e : exn).

Section Pipeline.

(** The OpenCV routines the script calls and whose code is not part of
    it: the per-pixel BGR to HSV conversion, the three mask filters and
    the contour extraction. *)
Variable cvt_pixel : pixel -> pixel.
Variable GaussianBlur : mask -> mask.
Variable erode : mask -> mask.
Variable dilate : mask -> mask.
Variable findContours : mask -> list contour.

(** [cv2.cvtColor(frame, cv2.COLOR_BGR2HSV)]; OpenCV rejects an empty
    source with [cv2.error]. *)
Definition cvtColor (img : image) : prog image :=
  if zero_sized img then raise CvError
  else ret (map (map cvt_pixel) img).

(** Lines 73-78. *)
Definition clean_and_find (m : mask) : list contour :=
  findContours (dilate (erode (GaussianBlur m))).

(** Lines 65-107.  The loop leaves at the first colour whose blob is
    accepted; the test of line 106 can then no longer fire. *)
Fixpoint detect (frame hsv : image) (cs : list (string * list hsv_range))
  : prog (option detection) :=
  match cs with
  | [] => ret None
  | (color_name, ranges) :: rest =>
      match build_mask hsv ranges None with
      | None => raise CvError
      | Some m =>
          match select_blob (clean_and_find m) with
          | Some b =>
              let '(fh, fw) := shape frame in
              set_frame_size fh fw ;;;
              ret (Some (Detection color_name b
                           (direction_of (fst (blob_centroid b)) fw)))
          | None => detect frame hsv rest
          end
      end
  end.

(** Lines 110-113. *)
Definition ensure_target : prog (Z * Z) :=
  g <- get_glob ;;
  match target g with
  | Some t => ret t
  | None =>
      t <- new_random_target (frame_width g) (frame_height g) default_margin ;;
      set_target t ;;;
      ret t
  end.

(** Lines 51-55.  When [cv2.flip] has returned [None], reading
    [frame.shape] at line 53 raises [AttributeError]. *)
Definition initialize (frame : image) : prog image :=
  g <- get_glob ;;
  if initialized g then ret frame
  else
    match cv2_flip frame with
    | None => raise AttributeError
    | Some frame' =>
        let '(fh, fw) := shape frame' in
        set_frame_size fh fw ;;;
        t <- new_random_target fw fh default_margin ;;
        set_target t ;;;
        set_initialized true ;;;
        ret frame'
    end.

(** One iteration of the loop body after a successful read
    (lines 50-169).  [cv2.cvtColor] rejects the [None] that the [cv2.flip]
    of line 57 returns for an empty frame with [cv2.error]. *)
Definition step (frame0 : image) : prog render :=
  frame1 <- initialize frame0 ;;
  match cv2_flip frame1 with
  | None => raise CvError
  | Some frame =>
      hsv <- cvtColor frame ;;
      d <- detect frame hsv colors ;;
      t <- ensure_target ;;
      let '(tx, ty) := t in
      nav <- navigate (option_map (fun x => blob_centroid (det_blob x)) d) tx ty ;;
      ret (Render
             (match d with
              | Some x => det_direction x
              | None => "No Object Detected"%string
              end)
             (option_map det_color d)
             (option_map det_blob d)
             nav (tx, ty))
  end.

(** The [while True] loop over what the camera delivers. *)
Fixpoint run (feed : list capture) (st : state) : list render * finish :=
  match feed with
  | [] => ([], FeedConsumed st)
  | NoFrame :: _ => ([], CameraNotAccessible st)
  | Frame f quit :: rest =>
      match step f st with
      | Raise e => ([], Uncaught e)
      | Ok r st' =>
          if quit then ([r], QuitKey st')
          else let '(rs, fin) := run rest st' in (r :: rs, fin)
      end
  end.

End Pipeline.

(* ------------------------------------------------------------------ *)
(** * Notions used in the statements *)

(** The part of the state a program leaves alone. *)
Definition same_clock (st st' : state) : Prop :=
  wall_clock (env st') = wall_clock (env st)
  /\ clock_reads (env st') = clock_reads (env st).

Definition in_bounds (w h : Z) (t : Z * Z) : Prop :=
  default_margin <= fst t <= w - default_margin
  /\ default_margin <= snd t <= h - default_margin.

Definition now_of (st : state) : float :=
  wall_clock (env st) (clock_reads (env st)).

Definition stamp_of (st : state) : float :=
  wall_clock (env st) (S (clock_reads (env st))).

(** The state in which the new target is drawn: both clock readings are
    taken and the timestamp is already stored. *)
Definition stamped (st : state) : state :=
  let g := glob st in
  let e := env st in
  State (Globals (initialized g) (target g) (stamp_of st)
                 (frame_width g) (frame_height g))
        (World (entropy e) (draws e) (wall_clock e) (S (S (clock_reads e)))).

(** The state once the frame size is bound to that of [frame]; nothing
    else changes. *)
Definition sized (frame : image) (st : state) : state :=
  State (Globals (initialized (glob st)) (target (glob st))
                 (target_reached_time (glob st))
                 (width frame) (height frame))
        (env st).

Definition instruction_of (dx dy : Z) : string :=
  let horiz := horiz_of dx in
  let vert := vert_of dy in
  if truthy horiz && truthy vert then (horiz ++ " & " ++ vert)%string
  else if truthy horiz then horiz
  else if truthy vert then vert
  else "Target Reached"%string.

Definition reached (dx dy : Z) : bool :=
  negb (truthy (horiz_of dx)) && negb (truthy (vert_of dy)).

(** The navigation state is a function of centroid and target alone. *)
Definition nav_of (c : option (Z * Z)) (tx ty : Z) : nav_state :=
  match c with
  | Some (cx, cy) =>
      Nav (instruction_of (tx - cx) (ty - cy)) (Some (tx - cx, ty - cy))
          (Some (hypot_int (tx - cx) (ty - cy)))
  | None => Nav "No object to navigate"%string None None
  end.

Definition centroid_of (d : option detection) : option (Z * Z) :=
  option_map (fun x => blob_centroid (det_blob x)) d.

Definition direction_shown (d : option detection) : string :=
  match d with
  | Some x => det_direction x
  | None => "No Object Detected"%string
  end.

(** A running process on frames of [w] columns and [h] rows: the size is
    bound and the one target lies within the margins. *)
Definition tracking (w h : Z) (st : state) : Prop :=
  initialized (glob st) = true
  /\ frame_width (glob st) = w
  /\ frame_height (glob st) = h
  /\ exists t, target (glob st) = Some t /\ in_bounds w h t.

Definition final_state (fin : finish) : option state :=
  match fin with
  | CameraNotAccessible st | QuitKey st | FeedConsumed st => Some st
  | Uncaught _ => None
  end.

Section Outcomes.

Variable GaussianBlur erode dilate : mask -> mask.
Variable findContours : mask -> list contour.

(** A colour is a miss on [hsv] when its mask exists and holds no
    accepted blob, and a hit with blob [b] when the blob is accepted. *)
Definition misses (hsv : image) (c : string * list hsv_range) : Prop :=
  exists m, build_mask hsv (snd c) None = Some m
            /\ select_blob (clean_and_find GaussianBlur erode dilate findContours m) = None.

Definition hits (hsv : image) (c : string * list hsv_range) (b : blob) : Prop :=
  exists m, build_mask hsv (snd c) None = Some m
            /\ select_blob (clean_and_find GaussianBlur erode dilate findContours m) = Some b.

End Outcomes.

(** A mask without a single non-zero entry. *)
Definition blank (m : mask) : Prop :=
  forall row v, In row m -> In v row -> v = 0.

Definition keeps_blank (filter : mask -> mask) : Prop :=
  forall m, blank m -> blank (filter m).

(** No pixel of the frame falls into any range of the colour table. *)
Definition colourless (cvt_pixel : pixel -> pixel) (f : image) : Prop :=
  forall row p name ranges lo hi,
    In row f -> In p row ->
    In (name, ranges) colors -> In (lo, hi) ranges ->
    in_range (cvt_pixel p) lo hi = false.


(** ** The instruction as the specification words it *)

(** The horizontal part: present when [|dx|] exceeds the threshold of 30,
    "Move Right" for a positive and "Move Left" for a negative offset. *)
Definition spec_horizontal (dx : Z) : option string :=
  if 30 <? Z.abs dx then
    if 0 <? dx then Some "Move Right"%string
    else if dx <? 0 then Some "Move Left"%string
    else None
  else None.

Definition spec_vertical (dy : Z) : option string :=
  if 30 <? Z.abs dy then
    if 0 <? dy then Some "Move Down"%string
    else if dy <? 0 then Some "Move Up"%string
    else None
  else None.

Definition spec_instruction (dx dy : Z) : string :=
  match spec_horizontal dx, spec_vertical dy with
  | Some h, Some v => (h ++ " & " ++ v)%string
  | Some h, None => h
  | None, Some v => v
  | None, None => "Target Reached"%string
  end.

(** A U-shaped region of pixels, 60 by 60 with a slot 20 wide and 40 deep
    cut in from the top, and its outer border as a chain of corner
    pixels. *)
Definition u_region : list (Z * Z) :=
  filter (fun p => negb ((20 <=? fst p) && (fst p <? 40) && (snd p <? 40)))
         (list_prod (map Z.of_nat (seq 0 60)) (map Z.of_nat (seq 0 60))).

Definition u_contour : contour :=
  [ (0, 0); (0, 59); (59, 59); (59, 0); (40, 0); (40, 39);
    (39, 40); (20, 40); (19, 39); (19, 0) ].

Definition mem_point (p : Z * Z) (l : list (Z * Z)) : bool :=
  existsb (fun q => (fst q =? fst p) && (snd q =? snd p)) l.

(** A pixel that lies within at least one of the ranges, and the mask that
    is 255 on exactly these pixels. *)
Definition in_some_range (ranges : list hsv_range) (p : pixel) : bool :=
  existsb (fun r => in_range p (fst r) (snd r)) ranges.

Definition union_mask (hsv : image) (ranges : list hsv_range) : mask :=
  map (map (fun p => if in_some_range ranges p then 255 else 0)) hsv.

(** A process past its first frame: initialised and holding a target. *)
Definition running (st : state) : Prop :=
  initialized (glob st) = true /\ target (glob st) <> None.

(** The state with another entropy tape. *)
Definition with_entropy (tape : nat -> Z) (st : state) : state :=
  State (glob st)
        (World tape (draws (env st)) (wall_clock (env st)) (clock_reads (env st))).

(** The point [new_random_target] makes of the entropy words [n] and
    [n + 1] for a frame of [w] by [h] pixels. *)
Definition drawn_target (w h : Z) (tape : nat -> Z) (n : nat) : Z * Z :=
  (default_margin + tape n mod (w - default_margin - default_margin + 1),
   default_margin + tape (S n) mod (h - default_margin - default_margin + 1)).

(* ------------------------------------------------------------------ *)
(** * A small instance of the OpenCV routines

    The statements below hold for every choice of the five routines.  To
    run the script on concrete frames one choice is fixed here: the camera
    delivers HSV triples, the filters keep the mask, and the contour of a
    mask is the box around its non-zero entries.  It stands in for OpenCV
    in the examples only. *)

Module Demo.

Definition cvt_pixel (p : pixel) : pixel := p.
Definition keep (m : mask) : mask := m.

Fixpoint nonzero_cols (x : Z) (row : list Z) : list Z :=
  match row with
  | [] => []
  | v :: rest =>
      if v =? 0 then nonzero_cols (x + 1) rest
      else x :: nonzero_cols (x + 1) rest
  end.

Fixpoint nonzero_points (y : Z) (m : mask) : list (Z * Z) :=
  match m with
  | [] => []
  | row :: rest =>
      map (fun x => (x, y)) (nonzero_cols 0 row) ++ nonzero_points (y + 1) rest
  end.

Definition findContours (m : mask) : list contour :=
  match nonzero_points 0 m with
  | [] => []
  | p :: ps =>
      let '(x, y, w, h) := boundingRect (p :: ps) in
      [ [ (x, y); (x, y + h - 1); (x + w - 1, y + h - 1); (x + w - 1, y) ] ]
  end.

Definition step := step cvt_pixel keep keep keep findContours.
Definition run := run cvt_pixel keep keep keep findContours.

(** A frame of [w] columns and [h] rows whose pixel at column [x], row
    [y] is [paint x y]. *)
Definition canvas (w h : nat) (paint : Z -> Z -> pixel) : image :=
  map (fun y => map (fun x => paint (Z.of_nat x) (Z.of_nat y)) (seq 0 w))
      (seq 0 h).

Definition grey : pixel := (0, 0, 128).
Definition green : pixel := (60, 200, 200).
Definition red : pixel := (5, 200, 200).

(** A square of side [side] whose top-left corner is [(x0, y0)]. *)
Definition in_square (x0 y0 side x y : Z) : bool :=
  (x0 <=? x) && (x <? x0 + side) && (y0 <=? y) && (y <? y0 + side).

Definition blank_frame : image := canvas 120 110 (fun _ _ => grey).

Definition green_frame (x0 y0 : Z) : image :=
  canvas 120 110 (fun x y => if in_square x0 y0 40 x y then green else grey).

Definition red_green_frame : image :=
  canvas 120 110 (fun x y =>
    if in_square 10 10 40 x y then green
    else if in_square 70 60 40 x y then red
    else grey).

(** A clock that starts late in 2023 and advances by a quarter of a
    second per reading, and a fixed entropy tape. *)
Definition clock (n : nat) : float :=
  (1700000000 + 0.25 * PrimFloat.of_uint63 (Uint63.of_Z (Z.of_nat n)))%float.

Definition tape (n : nat) : Z := 7919 * Z.of_nat n + 104729.

Definition world0 : world := World tape 0 clock 0.

(** A running process whose target is pinned at [t]. *)
Definition pinned (t : Z * Z) (last : float) : state :=
  State (Globals true (Some t) last 120 110) world0.

(** The same process with a clock that stands still. *)
Definition frozen (t : Z * Z) (last : float) : state :=
  State (Globals true (Some t) last 120 110)
        (World tape 0 (fun _ => 1700000000%float) 0).

(** The contour of an upright box with corners (0, 0) and (w, h). *)
Definition box (w h : Z) : contour := [ (0, 0); (0, h); (w, h); (w, 0) ].

(** A frame of 64 by 48 pixels with a green square, too small for a target
    to be drawn in it, and a 2 by 2 image of HSV pixels. *)
Definition small_frame (x0 y0 : Z) : image :=
  canvas 64 48 (fun x y => if in_square x0 y0 40 x y then green else grey).

Definition tiny_hsv : image :=
  [ [ (5, 200, 200); (90, 200, 200) ]; [ (175, 200, 200); (5, 50, 200) ] ].

End Demo.

(* ================================================================== *)
(** * Theorems *)

(* ------------------------------------------------------------------ *)
(** * Binary64 facts used by the cooldown gate *)

Module F64.

Local Open Scope float_scope.


(** Subtracting the integer 0 (converted to [0.0]) changes nothing. *)
Lemma sub_zero (x : float) : x - 0 = x.
Proof.
  apply Prim2SF_inj. rewrite sub_spec.
  destruct (Prim2SF x) as [s|s| |s m e]; try reflexivity.
  destruct s; reflexivity.
Qed.

(** [x - x] is a zero or not a number; it is never above a positive
    finite bound. *)
Lemma sub_diag_not_above (c x : float) :
  (0 <? c) = true -> (c <? x - x) = false.
Proof.
  rewrite !ltb_spec, sub_spec. unfold SFltb.
  change (Prim2SF 0) with (S754_zero false).
  destruct (Prim2SF x) as [s|s| |s m e].
  - destruct s; cbn; destruct (Prim2SF c) as [sc|sc| |sc mc ec];
      cbn; try destruct sc; intros; try discriminate; reflexivity.
  - destruct s; cbn; destruct (Prim2SF c) as [sc|sc| |sc mc ec];
      cbn; try destruct sc; intros; try discriminate; reflexivity.
  - cbn. destruct (Prim2SF c); reflexivity.
  - unfold SF64sub, SFsub. rewrite Z.sub_diag. cbn.
    destruct (Prim2SF c) as [sc|sc| |sc mc ec];
      cbn; try destruct sc; intros; try discriminate; reflexivity.
Qed.

End F64.

(* ------------------------------------------------------------------ *)
(** * Reasoning about programs *)

Lemma bind_Ok {A B : Type} (c : prog A) (k : A -> prog B) st b st' :
  bind c k st = Ok b st' ->
  exists a s1, c st = Ok a s1 /\ k a s1 = Ok b st'.
Proof.
  unfold bind. destruct (c st) as [a s1|e]; intro H; [|discriminate].
  exists a, s1. split; [reflexivity|exact H].
Qed.

Lemma bind_Raise {A B : Type} (c : prog A) (k : A -> prog B) st e :
  bind c k st = Raise e ->
  c st = Raise e \/ exists a s1, c st = Ok a s1 /\ k a s1 = Raise e.
Proof.
  unfold bind. destruct (c st) as [a s1|e']; intro H.
  - right. exists a, s1. split; [reflexivity|exact H].
  - left. injection H as ->. reflexivity.
Qed.

Ltac inv_bind H :=
  let a := fresh "a" in
  let s := fresh "s" in
  let H1 := fresh "Hc" in
  let H2 := fresh "Hk" in
  apply bind_Ok in H; destruct H as (a & s & H1 & H2).

Ltac inv_ok H := injection H as ?; subst.

Lemma randint_Ok a b st v st' :
  randint a b st = Ok v st' ->
  a <= v <= b
  /\ glob st' = glob st
  /\ entropy (env st') = entropy (env st)
  /\ draws (env st') = S (draws (env st))
  /\ same_clock st st'.
Proof.
  unfold randint. destruct (b <? a) eqn:E; [discriminate|].
  intro H. inv_ok H. apply Z.ltb_ge in E. cbn.
  assert (0 <= entropy (env st) (draws (env st)) mod (b - a + 1) < b - a + 1)
    by (apply Z.mod_pos_bound; lia).
  repeat split; lia.
Qed.

Lemma randint_runs a b st :
  a <= b -> exists v st', randint a b st = Ok v st'.
Proof.
  intro H. unfold randint.
  destruct (b <? a) eqn:E; [apply Z.ltb_lt in E; lia|]. eauto.
Qed.

Lemma new_random_target_Ok w h st t st' :
  new_random_target w h default_margin st = Ok t st' ->
  in_bounds w h t
  /\ glob st' = glob st
  /\ entropy (env st') = entropy (env st)
  /\ draws (env st') = S (S (draws (env st)))
  /\ same_clock st st'.
Proof.
  unfold new_random_target. intro H.
  inv_bind H. inv_bind Hk. inv_ok Hk0.
  apply randint_Ok in Hc, Hc0.
  destruct Hc as (B1 & G1 & E1 & D1 & C1 & C1').
  destruct Hc0 as (B2 & G2 & E2 & D2 & C2 & C2').
  unfold in_bounds, same_clock. cbn.
  repeat split; try lia; congruence.
Qed.

Lemma new_random_target_runs w h st :
  2 * default_margin <= w -> 2 * default_margin <= h ->
  exists t st', new_random_target w h default_margin st = Ok t st'.
Proof.
  intros Hw Hh. unfold new_random_target, bind.
  destruct (randint_runs default_margin (w - default_margin) st) as (x & s1 & E1);
    [lia|].
  rewrite E1.
  destruct (randint_runs default_margin (h - default_margin) s1) as (y & s2 & E2);
    [lia|].
  rewrite E2. eauto.
Qed.

Lemma new_random_target_Raise w h st e :
  new_random_target w h default_margin st = Raise e -> e = ValueError.
Proof.
  unfold new_random_target, bind, randint.
  destruct (w - default_margin <? default_margin); [congruence|].
  cbn. destruct (h - default_margin <? default_margin); [congruence|].
  discriminate.
Qed.

(** ** The reach event *)

Lemma register_reach_pass st :
  cooldown_elapsed (now_of st) (target_reached_time (glob st)) = true ->
  register_reach st =
    match new_random_target (frame_width (glob st)) (frame_height (glob st))
                            default_margin (stamped st) with
    | Ok t s2 => set_target t s2
    | Raise e => Raise e
    end.
Proof.
  intro H. unfold register_reach, bind, time_time, get_glob.
  cbn -[cooldown_elapsed new_random_target].
  unfold now_of in H. rewrite H. reflexivity.
Qed.

Lemma register_reach_hold st :
  cooldown_elapsed (now_of st) (target_reached_time (glob st)) = false ->
  register_reach st =
    Ok tt (State (glob st)
                 (World (entropy (env st)) (draws (env st))
                        (wall_clock (env st)) (S (clock_reads (env st))))).
Proof.
  intro H. unfold register_reach, bind, time_time, get_glob.
  cbn -[cooldown_elapsed new_random_target].
  unfold now_of in H. rewrite H. reflexivity.
Qed.

(** ** The navigator *)

Lemma truthy_horiz dx : truthy (horiz_of dx) = (reach_threshold <? Z.abs dx).
Proof.
  unfold horiz_of. destruct (reach_threshold <? Z.abs dx); [|reflexivity].
  destruct (0 <? dx); reflexivity.
Qed.

Lemma truthy_vert dy : truthy (vert_of dy) = (reach_threshold <? Z.abs dy).
Proof.
  unfold vert_of. destruct (reach_threshold <? Z.abs dy); [|reflexivity].
  destruct (0 <? dy); reflexivity.
Qed.

Lemma instruction_reached dx dy :
  instruction_of dx dy = "Target Reached"%string <-> reached dx dy = true.
Proof.
  unfold instruction_of, reached, horiz_of, vert_of.
  destruct (reach_threshold <? Z.abs dx), (reach_threshold <? Z.abs dy);
    destruct (0 <? dx), (0 <? dy); cbn; split; intro H;
    try reflexivity; discriminate.
Qed.

(** The navigator is its pure part followed, on a reach, by the reach
    event. *)
Lemma navigate_some cx cy tx ty st :
  navigate (Some (cx, cy)) tx ty st =
    let dx := tx - cx in
    let dy := ty - cy in
    let nav := Nav (instruction_of dx dy) (Some (dx, dy))
                   (Some (hypot_int dx dy)) in
    if reached dx dy then
      match register_reach st with
      | Ok _ st' => Ok nav st'
      | Raise e => Raise e
      end
    else Ok nav st.
Proof.
  unfold navigate, instruction_of, reached, bind, ret. cbn zeta.
  destruct (truthy (horiz_of (tx - cx))), (truthy (vert_of (ty - cy)));
    reflexivity.
Qed.

Lemma navigate_none tx ty st :
  navigate None tx ty st = Ok (Nav "No object to navigate"%string None None) st.
Proof. reflexivity. Qed.

(** ** The frame loop *)

Section PipelineFacts.

Variable cvt_pixel : pixel -> pixel.
Variable GaussianBlur erode dilate : mask -> mask.
Variable findContours : mask -> list contour.

Let cv_detect := detect GaussianBlur erode dilate findContours.
Let cv_step := step cvt_pixel GaussianBlur erode dilate findContours.
Let cv_run := run cvt_pixel GaussianBlur erode dilate findContours.
Let cv_misses := misses GaussianBlur erode dilate findContours.
Let cv_hits := hits GaussianBlur erode dilate findContours.

Lemma detect_hit frame hsv pre c post b st :
  Forall (cv_misses hsv) pre ->
  cv_hits hsv c b ->
  cv_detect frame hsv (pre ++ c :: post) st =
    Ok (Some (Detection (fst c) b
                (direction_of (fst (blob_centroid b)) (width frame))))
       (sized frame st).
Proof.
  intros Hpre (m & Hm & Hb).
  induction Hpre as [|c0 pre (m0 & Hm0 & Hb0) _ IH]; cbn.
  - destruct c as [name ranges]. cbn in Hm |- *. rewrite Hm.
    rewrite Hb. reflexivity.
  - destruct c0 as [name0 ranges0]. cbn in Hm0 |- *. rewrite Hm0.
    rewrite Hb0. exact IH.
Qed.

Lemma detect_miss frame hsv cs st :
  Forall (cv_misses hsv) cs ->
  cv_detect frame hsv cs st = Ok None st.
Proof.
  induction 1 as [|c0 cs (m0 & Hm0 & Hb0) _ IH]; cbn; [reflexivity|].
  destruct c0 as [name0 ranges0]. cbn in Hm0 |- *. rewrite Hm0.
  rewrite Hb0. exact IH.
Qed.

Lemma detect_Ok frame hsv cs st d st' :
  cv_detect frame hsv cs st = Ok d st' ->
  match d with
  | None => Forall (cv_misses hsv) cs /\ st' = st
  | Some x =>
      exists pre ranges post,
        cs = pre ++ (det_color x, ranges) :: post
        /\ Forall (cv_misses hsv) pre
        /\ cv_hits hsv (det_color x, ranges) (det_blob x)
        /\ det_direction x =
             direction_of (fst (blob_centroid (det_blob x))) (width frame)
        /\ st' = sized frame st
  end.
Proof.
  revert d st'. induction cs as [|[name ranges] cs IH]; intros d st' H.
  - cbn in H. inv_ok H. split; [constructor|reflexivity].
  - cbn in H. destruct (build_mask hsv ranges None) as [m|] eqn:Hm;
      [|discriminate].
    destruct (select_blob (clean_and_find GaussianBlur erode dilate findContours m)) as [b|] eqn:Hb.
    + cbn in H. inv_ok H. exists [], ranges, cs. cbn.
      repeat split; try reflexivity; [constructor|].
      exists m. cbn. split; assumption.
    + apply IH in H. destruct d as [x|].
      * destruct H as (pre & rg & post & E & Hpre & Hhit & Hdir & Hst).
        exists ((name, ranges) :: pre), rg, post. rewrite E. cbn.
        repeat split; try assumption; try reflexivity.
        constructor; [|assumption]. exists m. cbn. split; assumption.
      * destruct H as [Hall Hst]. split; [|assumption].
        constructor; [|assumption]. exists m. cbn. split; assumption.
Qed.

Lemma cvtColor_Ok img hsv st st' :
  cvtColor cvt_pixel img st = Ok hsv st' ->
  zero_sized img = false /\ hsv = map (map cvt_pixel) img /\ st' = st.
Proof.
  unfold cvtColor. destruct (zero_sized img); [discriminate|].
  intro H. inv_ok H. repeat split.
Qed.

Lemma width_flip img : width (flip_horizontal img) = width img.
Proof.
  destruct img as [|row rest]; [reflexivity|].
  cbn. rewrite length_rev. reflexivity.
Qed.

Lemma height_flip img : height (flip_horizontal img) = height img.
Proof. unfold height, flip_horizontal. rewrite length_map. reflexivity. Qed.

Lemma zero_sized_flip img : zero_sized (flip_horizontal img) = zero_sized img.
Proof. unfold zero_sized. rewrite width_flip, height_flip. reflexivity. Qed.

Lemma initialize_started frame st :
  initialized (glob st) = true ->
  initialize frame st = Ok frame st.
Proof.
  intro H. unfold initialize, bind, get_glob. rewrite H. reflexivity.
Qed.

Lemma initialize_empty frame st :
  initialized (glob st) = false ->
  zero_sized frame = true ->
  initialize frame st = Raise AttributeError.
Proof.
  intros H Hz. unfold initialize, bind, get_glob, cv2_flip. rewrite H, Hz.
  reflexivity.
Qed.

Lemma initialize_fresh frame st :
  initialized (glob st) = false ->
  zero_sized frame = false ->
  initialize frame st =
    match new_random_target (width frame) (height frame) default_margin
                            (sized frame st) with
    | Ok t s1 =>
        Ok (flip_horizontal frame)
           (State (Globals true (Some t) (target_reached_time (glob s1))
                           (frame_width (glob s1)) (frame_height (glob s1)))
                  (env s1))
    | Raise e => Raise e
    end.
Proof.
  intros H Hz. unfold initialize, bind, get_glob, cv2_flip. rewrite H, Hz.
  unfold shape. rewrite width_flip, height_flip.
  unfold set_frame_size, sized. cbn -[new_random_target].
  destruct (new_random_target _ _ _ _) as [t s1|e]; reflexivity.
Qed.

Lemma ensure_target_some st t :
  target (glob st) = Some t -> ensure_target st = Ok t st.
Proof.
  intro H. unfold ensure_target, bind, get_glob. rewrite H. reflexivity.
Qed.

Lemma ensure_target_none st :
  target (glob st) = None ->
  ensure_target st =
    match new_random_target (frame_width (glob st)) (frame_height (glob st))
                            default_margin st with
    | Ok t s1 =>
        Ok t (State (Globals (initialized (glob s1)) (Some t)
                             (target_reached_time (glob s1))
                             (frame_width (glob s1)) (frame_height (glob s1)))
                    (env s1))
    | Raise e => Raise e
    end.
Proof.
  intro H. unfold ensure_target, bind, get_glob. rewrite H.
  destruct (new_random_target _ _ _ _) as [t s1|e]; reflexivity.
Qed.

(** A successful iteration, taken apart into its five stages. *)
Lemma step_Ok f st r st' :
  cv_step f st = Ok r st' ->
  exists f1 s0 d s1 t s2 nav,
    initialize f st = Ok f1 s0
    /\ zero_sized f = false
    /\ cv_detect (flip_horizontal f1)
              (map (map cvt_pixel) (flip_horizontal f1)) colors s0 = Ok d s1
    /\ ensure_target s1 = Ok t s2
    /\ navigate (centroid_of d) (fst t) (snd t) s2 = Ok nav st'
    /\ r = Render (direction_shown d) (option_map det_color d)
                  (option_map det_blob d) nav t.
Proof.
  unfold cv_step, step. intro H.
  inv_bind H. rename a into f1, s into s0, Hc into Hinit.
  unfold cv2_flip in Hk. destruct (zero_sized f1) eqn:Hz1; [discriminate|].
  inv_bind Hk. rename a into hsv, s into s0', Hc into Hcvt.
  apply cvtColor_Ok in Hcvt. destruct Hcvt as (_ & -> & ->).
  inv_bind Hk0. rename a into d, s into s1, Hc into Hdet.
  inv_bind Hk. rename a into t, s into s2, Hc into Hens.
  destruct t as [tx ty].
  inv_bind Hk0. rename a into nav, Hc into Hnav. inv_ok Hk.
  exists f1, s0, d, s1, (tx, ty), s2, nav.
  repeat split; try assumption.
  unfold initialize, bind, get_glob in Hinit.
  destruct (initialized (glob st)).
  - inv_ok Hinit. exact Hz1.
  - unfold cv2_flip in Hinit. destruct (zero_sized f) eqn:Hzf; [discriminate|].
    reflexivity.
Qed.

(** Nothing before the navigator reads the clock or touches the
    timestamp, and a running process keeps its target up to there. *)
Lemma before_navigate f st f1 s0 hsv d s1 t s2 :
  initialize f st = Ok f1 s0 ->
  cv_detect (flip_horizontal f1) hsv colors s0 = Ok d s1 ->
  ensure_target s1 = Ok t s2 ->
  same_clock st s2
  /\ target_reached_time (glob s2) = target_reached_time (glob st)
  /\ target (glob s2) = Some t
  /\ initialized (glob s2) = true
  /\ (initialized (glob st) = true -> target (glob st) <> None ->
      target (glob st) = Some t /\ env s2 = env st).
Proof.
  intros Hinit Hdet Hens.
  assert (Hd : env s1 = env s0 /\ initialized (glob s1) = initialized (glob s0)
               /\ target (glob s1) = target (glob s0)
               /\ target_reached_time (glob s1) = target_reached_time (glob s0)).
  { apply detect_Ok in Hdet. destruct d as [x|].
    - destruct Hdet as (? & ? & ? & _ & _ & _ & _ & ->). repeat split.
    - destruct Hdet as [_ ->]. repeat split. }
  destruct Hd as (He & Hi & Ht & Hr).
  destruct (initialized (glob st)) eqn:Ei.
  - rewrite (initialize_started _ _ Ei) in Hinit. inv_ok Hinit.
    destruct (target (glob s0)) as [t0|] eqn:Et.
    + rewrite (ensure_target_some s1 t0) in Hens by congruence.
      inv_ok Hens. unfold same_clock. rewrite He.
      repeat split; try congruence.
    + rewrite ensure_target_none in Hens by congruence.
      destruct (new_random_target _ _ _ _) as [t1 s3|e] eqn:En; [|discriminate].
      inv_ok Hens. apply new_random_target_Ok in En.
      destruct En as (_ & Hg & _ & _ & Hc1 & Hc2).
      unfold same_clock. cbn. rewrite Hg.
      repeat split; try congruence.
  - destruct (zero_sized f) eqn:Hzf;
      [rewrite (initialize_empty _ _ Ei Hzf) in Hinit; discriminate|].
    rewrite (initialize_fresh _ _ Ei Hzf) in Hinit.
    destruct (new_random_target _ _ _ _) as [t1 s3|e] eqn:En; [|discriminate].
    inv_ok Hinit. apply new_random_target_Ok in En.
    destruct En as (_ & Hg & _ & _ & Hc1 & Hc2).
    cbn in Hi, Ht, Hr, He.
    rewrite (ensure_target_some s1 t1) in Hens by congruence.
    inv_ok Hens. unfold same_clock. rewrite He, Hr, Hg, Ht.
    cbn in Hc1, Hc2 |- *.
    repeat split; try congruence; discriminate.
Qed.

(** A frame on which the navigator reports the reach went through the
    reach event. *)
Lemma navigate_reached c tx ty st nav st' :
  navigate c tx ty st = Ok nav st' ->
  nav_instruction nav = "Target Reached"%string ->
  register_reach st = Ok tt st'.
Proof.
  destruct c as [[cx cy]|]; [|intro H; inv_ok H; discriminate].
  rewrite navigate_some. cbn zeta.
  destruct (reached (tx - cx) (ty - cy)) eqn:R.
  - destruct (register_reach st) as [[] s|e]; [|discriminate].
    intros H _. inv_ok H. reflexivity.
  - intros H Hi. inv_ok H. cbn in Hi.
    apply instruction_reached in Hi. congruence.
Qed.

Lemma same_clock_now st s : same_clock st s -> now_of s = now_of st.
Proof. intros [H1 H2]. unfold now_of. rewrite H1, H2. reflexivity. Qed.



Lemma navigate_pure c tx ty st nav st' :
  navigate c tx ty st = Ok nav st' -> nav = nav_of c tx ty.
Proof.
  destruct c as [[cx cy]|]; [|intro H; inv_ok H; reflexivity].
  rewrite navigate_some. cbn zeta.
  destruct (reached (tx - cx) (ty - cy)).
  - destruct (register_reach st) as [[] s|e]; [|discriminate].
    intro H. inv_ok H. reflexivity.
  - intro H. inv_ok H. reflexivity.
Qed.

(** A frame whose instruction is not the reach leaves the state alone. *)
Lemma navigate_not_reached c tx ty st nav st' :
  navigate c tx ty st = Ok nav st' ->
  nav_instruction nav <> "Target Reached"%string ->
  st' = st.
Proof.
  destruct c as [[cx cy]|]; [|intro H; inv_ok H; reflexivity].
  rewrite navigate_some. cbn zeta.
  destruct (reached (tx - cx) (ty - cy)) eqn:R.
  - destruct (register_reach st) as [[] s|e]; [|discriminate].
    intros H Hn. inv_ok H. cbn in Hn.
    apply instruction_reached in R. contradiction.
  - intros H _. inv_ok H. reflexivity.
Qed.

Lemma register_reach_Ok st st' :
  register_reach st = Ok tt st' ->
  wall_clock (env st') = wall_clock (env st)
  /\ (clock_reads (env st') <= clock_reads (env st) + 2)%nat
  /\ (draws (env st') <= draws (env st) + 2)%nat.
Proof.
  intro H.
  destruct (cooldown_elapsed (now_of st) (target_reached_time (glob st))) eqn:G.
  - rewrite (register_reach_pass _ G) in H.
    destruct (new_random_target _ _ _ _) as [t s1|e] eqn:En; [|discriminate].
    inv_ok H. apply new_random_target_Ok in En.
    destruct En as (_ & _ & _ & Hd & Hw & Hc). cbn in *.
    rewrite Hw, Hc, Hd. repeat split; lia.
  - rewrite (register_reach_hold _ G) in H. inv_ok H. cbn.
    repeat split; lia.
Qed.

Lemma navigate_effects c tx ty st nav st' :
  navigate c tx ty st = Ok nav st' ->
  wall_clock (env st') = wall_clock (env st)
  /\ (clock_reads (env st') <= clock_reads (env st) + 2)%nat
  /\ (draws (env st') <= draws (env st) + 2)%nat.
Proof.
  intro H.
  destruct (string_dec (nav_instruction nav) "Target Reached") as [E|E].
  - apply (register_reach_Ok st st').
    exact (navigate_reached _ _ _ _ _ _ H E).
  - rewrite (navigate_not_reached _ _ _ _ _ _ H E).
    repeat split; lia.
Qed.

(** Evaluating the navigator again on the state it left, while the clock
    stands still, gives the same navigation state and registers
    nothing. *)
Lemma navigate_again c tx ty st nav st' now :
  (forall n, wall_clock (env st) n = now) ->
  navigate c tx ty st = Ok nav st' ->
  exists st'',
    navigate c tx ty st' = Ok nav st''
    /\ glob st'' = glob st'
    /\ draws (env st'') = draws (env st').
Proof.
  intros Hfrozen H.
  destruct (string_dec (nav_instruction nav) "Target Reached") as [E|E].
  - pose proof (navigate_pure _ _ _ _ _ _ H) as Hnav.
    pose proof (navigate_reached _ _ _ _ _ _ H E) as Hreg.
    assert (Hgate :
      cooldown_elapsed (now_of st') (target_reached_time (glob st')) = false).
    { destruct (register_reach_Ok _ _ Hreg) as (Hw & _).
      assert (Hn : now_of st' = now)
        by (unfold now_of; rewrite Hw; apply Hfrozen).
      destruct (cooldown_elapsed (now_of st) (target_reached_time (glob st)))
        eqn:G.
      - rewrite (register_reach_pass _ G) in Hreg.
        destruct (new_random_target _ _ _ _) as [t s1|e] eqn:En;
          [|discriminate].
        injection Hreg as <-. apply new_random_target_Ok in En.
        destruct En as (_ & Hg & _).
        rewrite Hn. cbn. rewrite Hg. cbn.
        unfold stamp_of. rewrite Hfrozen.
        apply F64.sub_diag_not_above. reflexivity.
      - rewrite (register_reach_hold _ G) in Hreg.
        rewrite Hn. injection Hreg as <-. cbn.
        unfold now_of in G. rewrite Hfrozen in G. exact G. }
    destruct c as [[cx cy]|]; [|subst nav; cbn in E; discriminate].
    subst nav. cbn in E. apply instruction_reached in E.
    rewrite navigate_some. cbn zeta. rewrite E.
    rewrite (register_reach_hold _ Hgate).
    eexists. split; [reflexivity|]. split; reflexivity.
  - pose proof (navigate_not_reached _ _ _ _ _ _ H E) as ->.
    exists st. repeat split. exact H.
Qed.

Lemma instruction_of_spec dx dy :
  instruction_of dx dy = spec_instruction dx dy.
Proof.
  unfold instruction_of, spec_instruction, spec_horizontal, spec_vertical,
    horiz_of, vert_of, reach_threshold.
  destruct (30 <? Z.abs dx) eqn:Hx, (30 <? Z.abs dy) eqn:Hy;
    destruct (0 <? dx) eqn:Px, (0 <? dy) eqn:Py; cbn; try reflexivity;
    destruct (dx <? 0) eqn:Nx; destruct (dy <? 0) eqn:Ny; cbn;
    try reflexivity; exfalso;
    repeat match goal with
           | H : (_ <? _) = true |- _ => apply Z.ltb_lt in H
           | H : (_ <? _) = false |- _ => apply Z.ltb_ge in H
           end; lia.
Qed.

Lemma hypot_int_spec dx dy :
  0 <= hypot_int dx dy
  /\ hypot_int dx dy * hypot_int dx dy <= dx * dx + dy * dy
      < (hypot_int dx dy + 1) * (hypot_int dx dy + 1).
Proof.
  unfold hypot_int. split; [apply Z.sqrt_nonneg|].
  assert (0 <= dx * dx + dy * dy) by nia.
  pose proof (Z.sqrt_spec _ H) as S. unfold Z.succ in S. exact S.
Qed.

(** C2.  On every frame with a detected blob, with [dx] and [dy] the
    offsets from the blob's centroid to the target shown, the navigation
    instruction is the one the specification describes (horizontal part
    iff |dx| > 30, vertical part iff |dy| > 30, joined by " & ", and
    "Target Reached" when neither is present), and the distance is the
    integer part of the square root of dx^2 + dy^2. *)
Theorem navigation_instruction f st r st' b :
  cv_step f st = Ok r st' ->
  detected_blob r = Some b ->
  let dx := fst (target_shown r) - fst (blob_centroid b) in
  let dy := snd (target_shown r) - snd (blob_centroid b) in
  nav_instruction (navigation r) = spec_instruction dx dy
  /\ nav_delta (navigation r) = Some (dx, dy)
  /\ exists d,
       nav_dist (navigation r) = Some d
       /\ 0 <= d
       /\ d * d <= dx * dx + dy * dy < (d + 1) * (d + 1).
Proof.
  intros Hstep Hb.
  destruct (step_Ok _ _ _ _ Hstep)
    as (f1 & s0 & d & s1 & t & s2 & nav & _ & _ & _ & _ & Hnav & ->).
  cbn [target_shown navigation detected_blob] in *.
  destruct d as [x|]; [|discriminate]. cbn in Hb. inv_ok Hb.
  apply navigate_pure in Hnav. subst nav. cbn.
  destruct (blob_centroid (det_blob x)) as [cx cy]. cbn.
  split; [apply instruction_of_spec|]. split; [reflexivity|].
  exists (hypot_int (fst t - cx) (snd t - cy)).
  split; [reflexivity|]. apply hypot_int_spec.
Qed.

(** C8.  Within one frame the navigator runs once, on a centroid [c] and
    the target shown.  Its navigation state does not depend on the state
    it runs in; running it a second time on the state it left, while the
    clock stands still, returns the same navigation state and changes
    neither the globals nor the number of random draws, so the reach is
    registered at most once.  A frame reads the clock at most twice,
    which is one reach event. *)
Theorem navigator_idempotent f st r st' now :
  cv_step f st = Ok r st' ->
  (forall n, wall_clock (env st) n = now) ->
  exists c s,
    navigate c (fst (target_shown r)) (snd (target_shown r)) s
      = Ok (navigation r) st'
    /\ (forall s2 nav2 s2',
          navigate c (fst (target_shown r)) (snd (target_shown r)) s2
            = Ok nav2 s2' ->
          nav2 = navigation r)
    /\ (exists st'',
          navigate c (fst (target_shown r)) (snd (target_shown r)) st'
            = Ok (navigation r) st''
          /\ glob st'' = glob st'
          /\ draws (env st'') = draws (env st'))
    /\ (clock_reads (env st') <= clock_reads (env st) + 2)%nat.
Proof.
  intros Hstep Hfrozen.
  destruct (step_Ok _ _ _ _ Hstep)
    as (f1 & s0 & d & s1 & t & s2 & nav & Hinit & _ & Hdet & Hens & Hnav & ->).
  destruct (before_navigate _ _ _ _ _ _ _ _ _ Hinit Hdet Hens)
    as ((Hw & Hc) & _).
  cbn [target_shown navigation].
  exists (centroid_of d), s2.
  split; [exact Hnav|]. split; [|split].
  - intros s3 nav2 s3' H2.
    rewrite (navigate_pure _ _ _ _ _ _ H2), (navigate_pure _ _ _ _ _ _ Hnav).
    reflexivity.
  - apply (navigate_again _ _ _ s2 nav st' now); [|exact Hnav].
    intro n. rewrite Hw. apply Hfrozen.
  - destruct (navigate_effects _ _ _ _ _ _ Hnav) as (_ & Hr & _).
    rewrite Hc in Hr. exact Hr.
Qed.

Lemma step_no_reach f st r st' :
  cv_step f st = Ok r st' ->
  nav_instruction (navigation r) <> "Target Reached"%string ->
  target_reached_time (glob st') = target_reached_time (glob st).
Proof.
  intros Hstep Hn.
  destruct (step_Ok _ _ _ _ Hstep)
    as (f1 & s0 & d & s1 & t & s2 & nav & Hinit & _ & Hdet & Hens & Hnav & ->).
  destruct (before_navigate _ _ _ _ _ _ _ _ _ Hinit Hdet Hens)
    as (_ & Htime & _).
  cbn in Hn. rewrite (navigate_not_reached _ _ _ _ _ _ Hnav Hn). exact Htime.
Qed.

(** The loop, as long as it goes on, is the iteration of [step]. *)
Lemma run_cons_consumed f quit feed st rs st' :
  cv_run (Frame f quit :: feed) st = (rs, FeedConsumed st') ->
  exists r s1 rs',
    cv_step f st = Ok r s1 /\ quit = false
    /\ cv_run feed s1 = (rs', FeedConsumed st') /\ rs = r :: rs'.
Proof.
  unfold cv_run, cv_step. cbn.
  destruct (step _ _ _ _ _ f st) as [r s1|e]; [|discriminate].
  destruct quit; [discriminate|].
  destruct (run _ _ _ _ _ feed s1) as [rs' fin] eqn:E.
  intro H. injection H as <- ->. exists r, s1, rs'. auto.
Qed.

Lemma run_no_reach feed st rs st' :
  cv_run feed st = (rs, FeedConsumed st') ->
  (forall r0, In r0 rs ->
              nav_instruction (navigation r0) <> "Target Reached"%string) ->
  target_reached_time (glob st') = target_reached_time (glob st).
Proof.
  revert st rs. induction feed as [|[|f quit] feed IH]; intros st rs H Hall.
  - cbn in H. injection H as _ <-. reflexivity.
  - discriminate.
  - apply run_cons_consumed in H.
    destruct H as (r & s1 & rs' & Hstep & _ & Hrun & ->).
    rewrite (IH _ _ Hrun) by (intros r0 Hin; apply Hall; right; exact Hin).
    apply (step_no_reach _ _ _ _ Hstep). apply Hall. left. reflexivity.
Qed.


(** ** The target invariant *)

Lemma register_reach_tracking w h st st' :
  tracking w h st -> register_reach st = Ok tt st' -> tracking w h st'.
Proof.
  intros (Hi & Hw & Hh & t & Ht & Hb) H.
  destruct (cooldown_elapsed (now_of st) (target_reached_time (glob st))) eqn:G.
  - rewrite (register_reach_pass _ G) in H.
    destruct (new_random_target _ _ _ _) as [t1 s1|e] eqn:En; [|discriminate].
    inv_ok H. apply new_random_target_Ok in En.
    destruct En as (Hb1 & Hg & _).
    unfold tracking. cbn. rewrite Hg. cbn.
    repeat split; try assumption. exists t1. split; [reflexivity|assumption].
  - rewrite (register_reach_hold _ G) in H. inv_ok H.
    unfold tracking. cbn. repeat split; try assumption.
    exists t. split; assumption.
Qed.

Lemma navigate_tracking w h c tx ty st nav st' :
  tracking w h st -> navigate c tx ty st = Ok nav st' -> tracking w h st'.
Proof.
  intros Htr H.
  destruct (string_dec (nav_instruction nav) "Target Reached") as [E|E].
  - apply (register_reach_tracking w h st); [exact Htr|].
    exact (navigate_reached _ _ _ _ _ _ H E).
  - rewrite (navigate_not_reached _ _ _ _ _ _ H E). exact Htr.
Qed.

Lemma detect_tracking w h frame hsv cs st d st' :
  shape frame = (h, w) ->
  tracking w h st -> cv_detect frame hsv cs st = Ok d st' -> tracking w h st'.
Proof.
  intros Hs Htr H. apply detect_Ok in H. destruct d as [x|].
  - destruct H as (? & ? & ? & _ & _ & _ & _ & ->).
    destruct Htr as (Hi & _ & _ & Ht). injection Hs as Hh Hw.
    unfold tracking, sized. cbn. repeat split; assumption.
  - destruct H as [_ ->]. exact Htr.
Qed.

Lemma shape_flip img : shape (flip_horizontal img) = shape img.
Proof. unfold shape. rewrite width_flip, height_flip. reflexivity. Qed.

Lemma step_tracking w h f st r st' :
  shape f = (h, w) ->
  initialized (glob st) = false \/ tracking w h st ->
  cv_step f st = Ok r st' ->
  tracking w h st' /\ in_bounds w h (target_shown r).
Proof.
  intros Hs Hst Hstep.
  destruct (step_Ok _ _ _ _ Hstep)
    as (f1 & s0 & d & s1 & t & s2 & nav & Hinit & _ & Hdet & Hens & Hnav & ->).
  cbn [target_shown].
  assert (H0 : tracking w h s0 /\ shape f1 = (h, w)).
  { destruct (initialized (glob st)) eqn:Ei.
    - rewrite (initialize_started _ _ Ei) in Hinit. inv_ok Hinit.
      destruct Hst as [Hst|Hst]; [discriminate|]. split; assumption.
    - destruct (zero_sized f) eqn:Hzf;
      [rewrite (initialize_empty _ _ Ei Hzf) in Hinit; discriminate|].
    rewrite (initialize_fresh _ _ Ei Hzf) in Hinit.
      destruct (new_random_target _ _ _ _) as [t1 s3|e] eqn:En; [|discriminate].
      inv_ok Hinit. apply new_random_target_Ok in En.
      destruct En as (Hb & Hg & _). injection Hs as Hh Hw.
      split; [|rewrite shape_flip; unfold shape; congruence].
      unfold tracking. cbn. rewrite Hg. cbn.
      repeat split; try assumption.
      exists t1. split; [reflexivity|]. rewrite <- Hh, <- Hw. exact Hb. }
  destruct H0 as [Htr0 Hs1].
  assert (Htr1 : tracking w h s1).
  { apply (detect_tracking w h _ _ _ _ _ _ ltac:(rewrite shape_flip; exact Hs1)
             Htr0 Hdet). }
  destruct Htr1 as (Hi1 & Hw1 & Hh1 & t1 & Ht1 & Hb1).
  rewrite (ensure_target_some _ _ Ht1) in Hens. injection Hens as <- <-.
  split; [|exact Hb1].
  apply (navigate_tracking w h _ _ _ _ _ _
           (conj Hi1 (conj Hw1 (conj Hh1 (ex_intro _ t1 (conj Ht1 Hb1))))) Hnav).
Qed.

Lemma run_tracking w h feed st rs fin :
  (forall f q, In (Frame f q) feed -> shape f = (h, w)) ->
  initialized (glob st) = false \/ tracking w h st ->
  cv_run feed st = (rs, fin) ->
  (forall r, In r rs -> in_bounds w h (target_shown r))
  /\ (forall s, rs <> [] -> final_state fin = Some s -> tracking w h s).
Proof.
  revert st rs fin.
  induction feed as [|[|f quit] feed IH]; intros st rs fin Hshape Hst H.
  - cbn in H. injection H as <- <-. split; [intros r []|].
    intros s Hne. contradiction.
  - cbn in H. injection H as <- <-. split; [intros r []|].
    intros s Hne. contradiction.
  - unfold cv_run in H. cbn in H. fold cv_run in H.
    destruct (step _ _ _ _ _ f st) as [r s1|e] eqn:Hstep.
    + apply (step_tracking w h) in Hstep;
        [|apply (Hshape f quit); left; reflexivity|exact Hst].
      destruct Hstep as [Htr Hb].
      destruct quit.
      * injection H as <- <-. split.
        -- intros r0 [<-|[]]. exact Hb.
        -- intros s _ Hs. cbn in Hs. inv_ok Hs. exact Htr.
      * destruct (cv_run feed s1) as [rs' fin'] eqn:Hrun.
        injection H as <- <-.
        destruct (IH s1 rs' fin') as [IH1 IH2];
          [intros f0 q0 Hin; apply (Hshape f0 q0); right; exact Hin
          |right; exact Htr|exact Hrun|].
        split.
        -- intros r0 [<-|Hin]; [exact Hb|apply IH1; exact Hin].
        -- intros s _ Hs. destruct rs' as [|r1 rs''].
           ++ destruct feed as [|[|f2 q2] feed'].
              ** cbn in Hrun. injection Hrun as <-. cbn in Hs. inv_ok Hs.
                 exact Htr.
              ** cbn in Hrun. injection Hrun as <-. cbn in Hs. inv_ok Hs.
                 exact Htr.
              ** unfold cv_run in Hrun. cbn in Hrun.
                 destruct (step _ _ _ _ _ f2 s1) as [r2 s2|e2].
                 --- destruct q2; [discriminate|].
                     destruct (run _ _ _ _ _ feed' s2). discriminate.
                 --- injection Hrun as <-. discriminate.
           ++ apply IH2; [discriminate|exact Hs].
    + injection H as <- <-. split; [intros r []|].
      intros s Hne. contradiction.
Qed.

(** C6.  Whatever [new_random_target] returns lies within the margins of
    the size it was asked for, 50 <= x <= w - 50 and 50 <= y <= h - 50.
    Over a run from process start on frames of one size (h rows, w
    columns) the target shown on every frame lies within these bounds,
    and after the first frame the globals hold one target, within the
    bounds, whenever the loop ends without an exception. *)
Theorem target_within_margins :
  (forall w h st t st',
      new_random_target w h default_margin st = Ok t st' ->
      50 <= fst t <= w - 50 /\ 50 <= snd t <= h - 50)
  /\ (forall e feed w h rs fin,
        (forall f q, In (Frame f q) feed -> shape f = (h, w)) ->
        cv_run feed (initial_state e) = (rs, fin) ->
        (forall r, In r rs ->
                   50 <= fst (target_shown r) <= w - 50
                   /\ 50 <= snd (target_shown r) <= h - 50)
        /\ (forall s, rs <> [] -> final_state fin = Some s ->
                      initialized (glob s) = true
                      /\ exists t, target (glob s) = Some t
                                   /\ 50 <= fst t <= w - 50
                                   /\ 50 <= snd t <= h - 50)).
Proof.
  split.
  - intros w h st t st' H. apply new_random_target_Ok in H.
    destruct H as (Hb & _). exact Hb.
  - intros e feed w h rs fin Hshape Hrun.
    destruct (run_tracking w h feed (initial_state e) rs fin Hshape
                (or_introl eq_refl) Hrun) as [H1 H2].
    split.
    + intros r Hin. exact (H1 r Hin).
    + intros s Hne Hs.
      destruct (H2 s Hne Hs) as (Hi & _ & _ & t & Ht & Hb).
      split; [exact Hi|]. exists t. split; [exact Ht|exact Hb].
Qed.

End PipelineFacts.

(* ------------------------------------------------------------------ *)
(** * The blob selector *)

Lemma Qltb_lt (a b : Q) : Qltb a b = true <-> (a < b)%Q.
Proof. unfold Qltb, Qlt. apply Z.ltb_lt. Qed.

Lemma Qltb_ge (a b : Q) : Qltb a b = false <-> (b <= a)%Q.
Proof. unfold Qltb, Qle. apply Z.ltb_ge. Qed.

Lemma max_by_area_In best rest :
  In (max_by_area best rest) (best :: rest).
Proof.
  revert best. induction rest as [|c rest IH]; intro best; cbn.
  - left. reflexivity.
  - destruct (Qltb (contourArea best) (contourArea c)).
    + right. apply IH.
    + destruct (IH best) as [H|H]; [left; exact H|right; right; exact H].
Qed.

Lemma max_by_area_ge_best best rest :
  (contourArea best <= contourArea (max_by_area best rest))%Q.
Proof.
  revert best. induction rest as [|c rest IH]; intro best; cbn.
  - apply Qle_refl.
  - destruct (Qltb (contourArea best) (contourArea c)) eqn:E.
    + apply Qltb_lt in E. eapply Qle_trans; [apply Qlt_le_weak; exact E|apply IH].
    + apply IH.
Qed.

Lemma max_by_area_ge best rest c :
  In c (best :: rest) ->
  (contourArea c <= contourArea (max_by_area best rest))%Q.
Proof.
  revert best. induction rest as [|c0 rest IH]; intros best Hin; cbn.
  - destruct Hin as [<-|[]]. apply Qle_refl.
  - destruct (Qltb (contourArea best) (contourArea c0)) eqn:E.
    + destruct Hin as [<-|Hin].
      * apply Qltb_lt in E.
        eapply Qle_trans; [apply Qlt_le_weak; exact E|apply max_by_area_ge_best].
      * apply IH. exact Hin.
    + destruct Hin as [<-|[<-|Hin]].
      * apply max_by_area_ge_best.
      * apply Qltb_ge in E.
        eapply Qle_trans; [exact E|apply max_by_area_ge_best].
      * apply IH. right. exact Hin.
Qed.

(** The selector, read off the code: the largest contour decides. *)
Lemma select_blob_cons c0 rest :
  select_blob (c0 :: rest) =
    let c := max_by_area c0 rest in
    if Qltb min_area (contourArea c) then
      Some (Blob (boundingRect c)
                 (fst (fst (fst (boundingRect c))) + snd (fst (boundingRect c)) / 2,
                  snd (fst (fst (boundingRect c))) + snd (boundingRect c) / 2)
                 (contourArea c))
    else None.
Proof.
  unfold select_blob. cbn zeta.
  destruct (Qltb min_area (contourArea (max_by_area c0 rest))); [|reflexivity].
  destruct (boundingRect (max_by_area c0 rest)) as [[[x y] w] h]. reflexivity.
Qed.

Lemma select_blob_Some contours b :
  select_blob contours = Some b ->
  exists c,
    In c contours
    /\ (forall c', In c' contours -> (contourArea c' <= contourArea c)%Q)
    /\ (min_area < contourArea c)%Q
    /\ blob_area b = contourArea c
    /\ blob_rect b = boundingRect c
    /\ blob_centroid b =
         (fst (fst (fst (boundingRect c))) + snd (fst (boundingRect c)) / 2,
          snd (fst (fst (boundingRect c))) + snd (boundingRect c) / 2).
Proof.
  destruct contours as [|c0 rest]; [discriminate|].
  rewrite select_blob_cons. cbn zeta.
  destruct (Qltb min_area (contourArea (max_by_area c0 rest))) eqn:E;
    [|discriminate].
  intro H. inv_ok H. exists (max_by_area c0 rest).
  split; [apply max_by_area_In|].
  split; [intros c' Hin; apply max_by_area_ge; exact Hin|].
  split; [apply Qltb_lt; exact E|].
  repeat split.
Qed.

Lemma select_blob_None contours :
  select_blob contours = None <->
  forall c, In c contours -> (contourArea c <= min_area)%Q.
Proof.
  destruct contours as [|c0 rest].
  - split; [intros _ c []|reflexivity].
  - rewrite select_blob_cons. cbn zeta.
    destruct (Qltb min_area (contourArea (max_by_area c0 rest))) eqn:E.
    + split; [discriminate|]. intro H. exfalso.
      apply Qltb_lt in E. apply (Qlt_not_le _ _ E).
      apply H. apply max_by_area_In.
    + split; [|reflexivity]. intros _ c Hin. apply Qltb_ge in E.
      eapply Qle_trans; [apply max_by_area_ge; exact Hin|exact E].
Qed.

(** C3.  The selector accepts a blob exactly when the largest contour area
    is above the threshold of 800 (equivalently, when some contour's is);
    an accepted blob carries that largest area, which is therefore at
    least 800.  Contours whose largest area is 799 give no blob, contours
    whose largest area is 801 give a blob of area 801. *)
Theorem blob_area_threshold (contours : list contour) :
  (select_blob contours <> None <->
     exists c, In c contours /\ (800 < contourArea c)%Q)
  /\ (forall b, select_blob contours = Some b ->
        (800 < blob_area b)%Q /\ (800 <= blob_area b)%Q
        /\ (forall c, In c contours -> (contourArea c <= blob_area b)%Q))
  /\ (forall c, In c contours -> (contourArea c == 799)%Q ->
        (forall c', In c' contours -> (contourArea c' <= contourArea c)%Q) ->
        select_blob contours = None)
  /\ (forall c, In c contours -> (contourArea c == 801)%Q ->
        (forall c', In c' contours -> (contourArea c' <= contourArea c)%Q) ->
        exists b, select_blob contours = Some b /\ (blob_area b == 801)%Q).
Proof.
  split; [|split; [|split]].
  - split.
    + intro H. destruct (select_blob contours) as [b|] eqn:E; [|contradiction].
      destruct (select_blob_Some _ _ E) as (c & Hin & _ & Hlt & _).
      exists c. split; assumption.
    + intros (c & Hin & Hlt) E.
      apply (Qlt_not_le _ _ Hlt). exact (proj1 (select_blob_None _) E c Hin).
  - intros b E.
    destruct (select_blob_Some _ _ E) as (c & Hin & Hmax & Hlt & -> & _).
    split; [exact Hlt|]. split; [apply Qlt_le_weak; exact Hlt|exact Hmax].
  - intros c Hin Ha Hmax. apply select_blob_None. intros c' Hin'.
    eapply Qle_trans; [apply Hmax; exact Hin'|].
    rewrite Ha. discriminate.
  - intros c Hin Ha Hmax.
    destruct (select_blob contours) as [b|] eqn:E.
    + exists b. split; [reflexivity|].
      destruct (select_blob_Some _ _ E) as (c1 & Hin1 & Hmax1 & _ & -> & _).
      apply Qle_antisym.
      * rewrite <- Ha. apply Hmax. exact Hin1.
      * rewrite <- Ha. apply Hmax1. exact Hin.
    + exfalso. pose proof (proj1 (select_blob_None _) E c Hin) as Hle.
      rewrite Ha in Hle. apply Hle. reflexivity.
Qed.

(** ** The centroid *)

Lemma list_min_le d l : list_min d l <= d.
Proof.
  unfold list_min. revert d. induction l as [|a l IH]; intro d; cbn; [lia|].
  specialize (IH (Z.min d a)). lia.
Qed.

Lemma list_max_ge d l : d <= list_max d l.
Proof.
  unfold list_max. revert d. induction l as [|a l IH]; intro d; cbn; [lia|].
  specialize (IH (Z.max d a)). lia.
Qed.

Lemma boundingRect_nonempty p c x y w h :
  boundingRect (p :: c) = (x, y, w, h) -> 1 <= w /\ 1 <= h.
Proof.
  destruct p as [x0 y0]. cbn. intro H. injection H as <- <- <- <-.
  pose proof (list_min_le x0 (map fst c)). pose proof (list_max_ge x0 (map fst c)).
  pose proof (list_min_le y0 (map snd c)). pose proof (list_max_ge y0 (map snd c)).
  lia.
Qed.

Lemma mem_point_In p l : mem_point p l = true <-> In p l.
Proof.
  unfold mem_point. rewrite existsb_exists. split.
  - intros ([qx qy] & Hin & H). apply andb_true_iff in H. cbn in H.
    destruct H as [H1 H2]. apply Z.eqb_eq in H1, H2.
    destruct p as [px py]. cbn in H1, H2. subst. exact Hin.
  - intro Hin. exists p. split; [exact Hin|].
    rewrite !Z.eqb_refl. reflexivity.
Qed.

(** C9.  The centroid of an accepted blob is the integer centre of the
    bounding box of its contour, (x + w // 2, y + h // 2); the box is at
    least one pixel wide and high and the centroid lies inside it.  It is
    not the centroid of the region: for the U-shaped region it falls into
    the slot, on no pixel of the region, and its row is not the mean row of
    the region's pixels. *)
Theorem centroid_is_box_centre :
  (forall contours b,
      select_blob contours = Some b ->
      exists x y w h,
        blob_rect b = (x, y, w, h)
        /\ blob_centroid b = (x + w / 2, y + h / 2)
        /\ 1 <= w /\ 1 <= h
        /\ x <= fst (blob_centroid b) < x + w
        /\ y <= snd (blob_centroid b) < y + h
        /\ exists c, In c contours /\ boundingRect c = (x, y, w, h))
  /\ (exists b,
        (forall p, In p u_contour -> In p u_region)
        /\ boundingRect u_region = boundingRect u_contour
        /\ select_blob [u_contour] = Some b
        /\ ~ In (blob_centroid b) u_region
        /\ fold_right Z.add 0 (map snd u_region)
           <> Z.of_nat (List.length u_region) * snd (blob_centroid b)).
Proof.
  split.
  - intros contours b E.
    destruct (select_blob_Some _ _ E) as (c & Hin & _ & Hlt & _ & Hr & Hc).
    destruct (boundingRect c) as [[[x y] w] h] eqn:Hb.
    exists x, y, w, h. cbn in Hc.
    assert (Hwh : 1 <= w /\ 1 <= h).
    { destruct c as [|p c].
      - exfalso. revert Hlt. cbn. discriminate.
      - exact (boundingRect_nonempty _ _ _ _ _ _ Hb). }
    destruct Hwh as [Hw Hh].
    split; [exact Hr|]. split; [exact Hc|].
    split; [exact Hw|]. split; [exact Hh|].
    rewrite Hc. cbn.
    assert (0 <= w / 2 < w) by (split; [apply Z.div_pos; lia|apply Z.div_lt; lia]).
    assert (0 <= h / 2 < h) by (split; [apply Z.div_pos; lia|apply Z.div_lt; lia]).
    split; [lia|]. split; [lia|].
    exists c. split; [exact Hin|exact Hb].
  - eexists. split; [|split; [|split; [vm_compute; reflexivity|split]]].
    + intros p Hin. apply mem_point_In.
      assert (F : forallb (fun q => mem_point q u_region) u_contour = true)
        by (vm_compute; reflexivity).
      rewrite forallb_forall in F. apply F. exact Hin.
    + vm_compute. reflexivity.
    + intro Hin. apply mem_point_In in Hin. vm_compute in Hin. discriminate.
    + vm_compute. discriminate.
Qed.

(* ------------------------------------------------------------------ *)
(** * Colour iteration, empty frames and malformed frames *)

Lemma In_zip_with {A B C : Type} (f : A -> B -> C) xs ys v :
  In v (zip_with f xs ys) -> exists x y, In x xs /\ In y ys /\ v = f x y.
Proof.
  revert ys. induction xs as [|x xs IH]; intros [|y ys] H; cbn in H;
    try contradiction.
  destruct H as [<-|H].
  - exists x, y. cbn. auto.
  - destruct (IH _ H) as (x' & y' & Hx & Hy & ->).
    exists x', y'. cbn. auto.
Qed.

Lemma bitwise_or_blank m1 m2 : blank m1 -> blank m2 -> blank (bitwise_or m1 m2).
Proof.
  intros H1 H2 row v Hrow Hv. unfold bitwise_or in Hrow.
  apply In_zip_with in Hrow. destruct Hrow as (r1 & r2 & Hr1 & Hr2 & ->).
  apply In_zip_with in Hv. destruct Hv as (a & b & Ha & Hb & ->).
  rewrite (H1 _ _ Hr1 Ha), (H2 _ _ Hr2 Hb). reflexivity.
Qed.

Lemma inRange_blank hsv lo hi :
  (forall row p, In row hsv -> In p row -> in_range p lo hi = false) ->
  blank (inRange hsv lo hi).
Proof.
  intros H row v Hrow Hv. unfold inRange in Hrow.
  apply in_map_iff in Hrow. destruct Hrow as (r & <- & Hr).
  apply in_map_iff in Hv. destruct Hv as (p & <- & Hp).
  rewrite (H _ _ Hr Hp). reflexivity.
Qed.

Lemma build_mask_blank hsv ranges acc :
  (forall lo hi row p, In (lo, hi) ranges -> In row hsv -> In p row ->
                       in_range p lo hi = false) ->
  match acc with
  | Some m => blank m
  | None => ranges <> []
  end ->
  exists m, build_mask hsv ranges acc = Some m /\ blank m.
Proof.
  revert acc. induction ranges as [|[lo hi] ranges IH]; intros acc Hout Hacc.
  - destruct acc as [m|]; [|contradiction]. exists m. split; [reflexivity|exact Hacc].
  - cbn. apply IH.
    + intros lo' hi' row p Hin. apply Hout. right. exact Hin.
    + assert (Hpart : blank (inRange hsv lo hi)).
      { apply inRange_blank. intros row p. apply Hout. left. reflexivity. }
      destruct acc as [m|]; [apply bitwise_or_blank; assumption|exact Hpart].
Qed.

Lemma In_flip_horizontal img row p :
  In row (flip_horizontal img) -> In p row ->
  exists row0, In row0 img /\ In p row0.
Proof.
  unfold flip_horizontal. intros Hrow Hp.
  apply in_map_iff in Hrow. destruct Hrow as (row0 & <- & Hr).
  exists row0. split; [exact Hr|]. apply in_rev. exact Hp.
Qed.

Lemma colors_ranges_nonempty c : In c colors -> snd c <> [].
Proof.
  intro H. cbn in H.
  repeat (destruct H as [<-|H]; [discriminate|]). contradiction.
Qed.

Section FrameClaims.

Variable cvt_pixel : pixel -> pixel.
Variable GaussianBlur erode dilate : mask -> mask.
Variable findContours : mask -> list contour.

Local Abbreviation cv_detect := (detect GaussianBlur erode dilate findContours).
Local Abbreviation cv_step := (step cvt_pixel GaussianBlur erode dilate findContours).
Local Abbreviation cv_run := (run cvt_pixel GaussianBlur erode dilate findContours).
Local Abbreviation cv_misses := (misses GaussianBlur erode dilate findContours).
Local Abbreviation cv_hits := (hits GaussianBlur erode dilate findContours).

(** C5.  The colours are tried in the order of the table.  When a frame
    reports a colour it reports exactly one blob with it: the table splits
    at that colour, every colour before it was tried and missed, and
    whatever follows it in the table is not looked at, so any other tail
    gives the same detection.  When no colour is reported no blob is,
    and every colour of the table missed. *)
Theorem first_colour_wins f st r st' :
  cv_step f st = Ok r st' ->
  exists hsv,
    match detected_color r, detected_blob r with
    | Some name, Some b =>
        exists pre ranges post,
          colors = pre ++ (name, ranges) :: post
          /\ Forall (cv_misses hsv) pre
          /\ cv_hits hsv (name, ranges) b
          /\ forall frame post' s,
               exists dir,
                 cv_detect frame hsv (pre ++ (name, ranges) :: post') s
                 = Ok (Some (Detection name b dir)) (sized frame s)
    | None, None => Forall (cv_misses hsv) colors
    | _, _ => False
    end.
Proof.
  intro Hstep.
  destruct (step_Ok _ _ _ _ _ _ _ _ _ Hstep)
    as (f1 & s0 & d & s1 & t & s2 & nav & _ & _ & Hdet & _ & _ & ->).
  exists (map (map cvt_pixel) (flip_horizontal f1)).
  apply detect_Ok in Hdet. cbn [detected_color detected_blob].
  destruct d as [x|]; cbn.
  - destruct Hdet as (pre & ranges & post & E & Hpre & Hhit & _ & _).
    exists pre, ranges, post.
    split; [exact E|]. split; [exact Hpre|]. split; [exact Hhit|].
    intros frame post' s. eexists.
    exact (detect_hit _ _ _ _ frame _ pre (det_color x, ranges) post' _ s
             Hpre Hhit).
  - apply Hdet.
Qed.

Lemma colourless_misses f hsv :
  keeps_blank GaussianBlur -> keeps_blank erode -> keeps_blank dilate ->
  (forall m, blank m -> findContours m = []) ->
  (forall row p, In row hsv -> In p row ->
     exists row0 p0, In row0 f /\ In p0 row0 /\ p = cvt_pixel p0) ->
  colourless cvt_pixel f ->
  Forall (cv_misses hsv) colors.
Proof.
  intros Hg He Hd Hf Hsrc Hnone. apply Forall_forall. intros [name ranges] Hin.
  destruct (build_mask_blank hsv ranges None) as (m & Hm & Hblank).
  - intros lo hi row p Hr Hrow Hp.
    destruct (Hsrc _ _ Hrow Hp) as (row0 & p0 & Hrow0 & Hp0 & ->).
    exact (Hnone _ _ _ _ _ _ Hrow0 Hp0 Hin Hr).
  - exact (colors_ranges_nonempty _ Hin).
  - exists m. split; [exact Hm|].
    unfold clean_and_find. rewrite Hf; [reflexivity|].
    apply Hd, He, Hg, Hblank.
Qed.

Lemma hsv_source f1 row p :
  In row (map (map cvt_pixel) (flip_horizontal f1)) -> In p row ->
  exists row0 p0, In row0 f1 /\ In p0 row0 /\ p = cvt_pixel p0.
Proof.
  intros Hrow Hp.
  apply in_map_iff in Hrow. destruct Hrow as (r1 & <- & Hr1).
  apply in_map_iff in Hp. destruct Hp as (p0 & <- & Hp0).
  destruct (In_flip_horizontal _ _ _ Hr1 Hp0) as (row0 & Hrow0 & Hp00).
  exists row0, p0. auto.
Qed.

(** C7.  Assume the three filters keep a blank mask blank and no contour
    is found in a blank mask.  On a frame none of whose pixels falls into
    any range of the colour table, the frame reports no colour and no
    blob, the direction "No Object Detected" and the instruction "No
    object to navigate" with neither offsets nor distance.  A running
    process with a target completes such a frame, and its state is left
    as it was. *)
Theorem no_object_frame f st :
  keeps_blank GaussianBlur -> keeps_blank erode -> keeps_blank dilate ->
  (forall m, blank m -> findContours m = []) ->
  colourless cvt_pixel f ->
  (forall r st',
      cv_step f st = Ok r st' ->
      direction r = "No Object Detected"%string
      /\ detected_color r = None
      /\ detected_blob r = None
      /\ nav_instruction (navigation r) = "No object to navigate"%string
      /\ nav_delta (navigation r) = None
      /\ nav_dist (navigation r) = None)
  /\ (zero_sized f = false -> initialized (glob st) = true ->
      forall t, target (glob st) = Some t ->
      cv_step f st =
        Ok (Render "No Object Detected" None None
                   (Nav "No object to navigate" None None) t) st).
Proof.
  intros Hg He Hd Hf Hnone. split.
  - intros r st' Hstep.
    destruct (step_Ok _ _ _ _ _ _ _ _ _ Hstep)
      as (f1 & s0 & d & s1 & t & s2 & nav & Hinit & _ & Hdet & _ & Hnav & ->).
    assert (Hmiss : Forall (cv_misses (map (map cvt_pixel) (flip_horizontal f1)))
                           colors).
    { apply (colourless_misses f); try assumption.
      intros row p Hrow Hp.
      destruct (hsv_source _ _ _ Hrow Hp) as (row1 & p1 & Hrow1 & Hp1 & ->).
      unfold initialize, bind, get_glob in Hinit.
      destruct (initialized (glob st)).
      - inv_ok Hinit. exists row1, p1. auto.
      - unfold cv2_flip in Hinit.
        destruct (zero_sized f) eqn:Hzf; [discriminate|].
        cbn -[new_random_target] in Hinit.
        destruct (new_random_target _ _ _ _); [|discriminate].
        inv_ok Hinit.
        destruct (In_flip_horizontal _ _ _ Hrow1 Hp1) as (row0 & Hrow0 & Hp0).
        exists row0, p1. auto. }
    rewrite (detect_miss _ _ _ _ _ _ _ _ Hmiss) in Hdet. inv_ok Hdet.
    cbn in Hnav. inv_ok Hnav. cbn. repeat split.
  - intros Hz Hi t Ht.
    assert (Hmiss : Forall (cv_misses (map (map cvt_pixel) (flip_horizontal f)))
                           colors).
    { apply (colourless_misses f); try assumption.
      intros row p Hrow Hp.
      destruct (hsv_source _ _ _ Hrow Hp) as (row1 & p1 & Hrow1 & Hp1 & ->).
      exists row1, p1. auto. }
    unfold step, bind.
    rewrite (initialize_started _ _ Hi).
    unfold cv2_flip. rewrite Hz.
    unfold cvtColor. rewrite zero_sized_flip, Hz. unfold ret at 1.
    rewrite (detect_miss _ _ _ _ _ _ _ _ Hmiss).
    rewrite (ensure_target_some _ _ Ht).
    destruct t as [tx ty]. reflexivity.
Qed.


End FrameClaims.

(* ------------------------------------------------------------------ *)
(** * The statements at work on concrete frames *)

Lemma keep_keeps_blank : keeps_blank Demo.keep.
Proof. intros m H. exact H. Qed.

Lemma nonzero_cols_blank x row :
  (forall v, In v row -> v = 0) -> Demo.nonzero_cols x row = [].
Proof.
  revert x. induction row as [|v row IH]; intros x H; cbn; [reflexivity|].
  rewrite (H v) by (left; reflexivity). cbn.
  apply IH. intros v' Hin. apply H. right. exact Hin.
Qed.

Lemma nonzero_points_blank y m : blank m -> Demo.nonzero_points y m = [].
Proof.
  revert y. induction m as [|row m IH]; intros y H; cbn; [reflexivity|].
  rewrite nonzero_cols_blank by (intros v Hv; apply (H row); [left; reflexivity|exact Hv]).
  cbn. apply IH. intros row' v Hr Hv. apply (H row'); [right; exact Hr|exact Hv].
Qed.

Lemma findContours_blank m : blank m -> Demo.findContours m = [].
Proof.
  intro H. unfold Demo.findContours. rewrite nonzero_points_blank by exact H.
  reflexivity.
Qed.

Lemma blank_frame_colourless : colourless Demo.cvt_pixel Demo.blank_frame.
Proof.
  intros row p name ranges lo hi Hrow Hp Hc Hr.
  unfold Demo.blank_frame, Demo.canvas in Hrow.
  apply in_map_iff in Hrow. destruct Hrow as (y & <- & _).
  apply in_map_iff in Hp. destruct Hp as (x & <- & _).
  assert (F : forallb (fun c : string * list hsv_range =>
                forallb (fun r : hsv_range =>
                           negb (in_range Demo.grey (fst r) (snd r))) (snd c))
                colors = true) by reflexivity.
  rewrite forallb_forall in F. specialize (F _ Hc). cbn [snd] in F.
  rewrite forallb_forall in F. specialize (F _ Hr). cbn [fst snd] in F.
  apply negb_true_iff in F. exact F.
Qed.

(** The scenario of the specification: object at (600, 100), target pinned
    at (100, 500). *)
Example navigate_scenario :
  navigate (Some (600, 100)) 100 500 (Demo.pinned (100, 500) 0)
  = Ok (Nav "Move Left & Move Down" (Some (-500, 400)) (Some 640))
       (Demo.pinned (100, 500) 0).
Proof. reflexivity. Qed.

(** The gate 0.3 s and 0.9 s after a reach registered at 1700000000. *)
Example cooldown_scenario :
  cooldown_elapsed (1700000000 + 0x1.3333333333333p-2) 1700000000 = false
  /\ cooldown_elapsed (1700000000 + 0x1.ccccccccccccdp-1) 1700000000 = true.
Proof. split; reflexivity. Qed.

(** A contour of area exactly 800 is not accepted. *)
Example area_800_rejected :
  (contourArea (Demo.box 40 20) == 800)%Q /\ select_blob [Demo.box 40 20] = None.
Proof. split; reflexivity. Qed.


Lemma navigation_instruction_witness :
  exists r st' b,
    Demo.step (Demo.green_frame 70 60) (Demo.pinned (90, 30) 0) = Ok r st'
    /\ detected_blob r = Some b
    /\ nav_instruction (navigation r)
       = spec_instruction (fst (target_shown r) - fst (blob_centroid b))
                          (snd (target_shown r) - snd (blob_centroid b))
    /\ nav_instruction (navigation r) = "Move Right & Move Up"%string.
Proof.
  eexists. eexists. eexists. split; [vm_compute; reflexivity|].
  split; [reflexivity|]. split; [|reflexivity].
  apply (navigation_instruction Demo.cvt_pixel Demo.keep Demo.keep Demo.keep
           Demo.findContours (Demo.green_frame 70 60) (Demo.pinned (90, 30) 0)
           _ _ _ ltac:(vm_compute; reflexivity) ltac:(reflexivity)).
Defined.

Lemma blob_area_threshold_witness :
  select_blob [Demo.box 10 10; Demo.box 47 17] = None
  /\ exists b,
       select_blob [Demo.box 47 17; Demo.box 89 9] = Some b
       /\ (blob_area b == 801)%Q.
Proof.
  split.
  - apply (proj1 (proj2 (proj2 (blob_area_threshold
                                  [Demo.box 10 10; Demo.box 47 17])))
             (Demo.box 47 17)).
    + right. left. reflexivity.
    + reflexivity.
    + intros c' [<-|[<-|[]]]; vm_compute; discriminate.
  - apply (proj2 (proj2 (proj2 (blob_area_threshold
                                  [Demo.box 47 17; Demo.box 89 9])))
             (Demo.box 89 9)).
    + right. left. reflexivity.
    + reflexivity.
    + intros c' [<-|[<-|[]]]; vm_compute; discriminate.
Defined.



Lemma first_colour_wins_witness :
  exists r st',
    Demo.step Demo.red_green_frame (Demo.pinned (40, 40) 0) = Ok r st'
    /\ detected_color r = Some "Red"%string
    /\ exists hsv b pre ranges post,
         detected_blob r = Some b
         /\ colors = pre ++ ("Red"%string, ranges) :: post
         /\ Forall (misses Demo.keep Demo.keep Demo.keep Demo.findContours hsv) pre
         /\ hits Demo.keep Demo.keep Demo.keep Demo.findContours hsv
                 ("Red"%string, ranges) b.
Proof.
  eexists. eexists. split; [vm_compute; reflexivity|].
  split; [reflexivity|].
  destruct (first_colour_wins Demo.cvt_pixel Demo.keep Demo.keep Demo.keep
              Demo.findContours Demo.red_green_frame (Demo.pinned (40, 40) 0)
              _ _ ltac:(vm_compute; reflexivity)) as (hsv & H).
  cbn [detected_color detected_blob] in H.
  destruct H as (pre & ranges & post & E & Hpre & Hhit & _).
  exists hsv. eexists. exists pre, ranges, post.
  split; [reflexivity|]. split; [exact E|]. split; [exact Hpre|exact Hhit].
Defined.

Lemma target_within_margins_witness :
  exists rs fin,
    Demo.run [Frame (Demo.green_frame 70 60) false;
              Frame (Demo.green_frame 48 38) false]
             (initial_state Demo.world0) = (rs, fin)
    /\ List.length rs = 2%nat
    /\ (forall r, In r rs ->
                  50 <= fst (target_shown r) <= 120 - 50
                  /\ 50 <= snd (target_shown r) <= 110 - 50)
    /\ (forall s, rs <> [] -> final_state fin = Some s ->
                  initialized (glob s) = true
                  /\ exists t, target (glob s) = Some t
                               /\ 50 <= fst t <= 120 - 50
                               /\ 50 <= snd t <= 110 - 50).
Proof.
  eexists. eexists. split; [vm_compute; reflexivity|].
  split; [reflexivity|].
  apply (proj2 (target_within_margins Demo.cvt_pixel Demo.keep Demo.keep
                  Demo.keep Demo.findContours)
           Demo.world0
           [Frame (Demo.green_frame 70 60) false;
            Frame (Demo.green_frame 48 38) false] 120 110).
  - intros f q [E|[E|[]]]; injection E as <- _; vm_compute; reflexivity.
  - vm_compute. reflexivity.
Defined.

Lemma no_object_frame_witness :
  Demo.step Demo.blank_frame (Demo.pinned (40, 40) 0)
  = Ok (Render "No Object Detected" None None
               (Nav "No object to navigate" None None) (40, 40))
       (Demo.pinned (40, 40) 0).
Proof.
  apply (proj2 (no_object_frame Demo.cvt_pixel Demo.keep Demo.keep Demo.keep
                  Demo.findContours Demo.blank_frame (Demo.pinned (40, 40) 0)
                  keep_keeps_blank keep_keeps_blank keep_keeps_blank
                  findContours_blank blank_frame_colourless));
    reflexivity.
Defined.

Lemma navigator_idempotent_witness :
  exists r st' c s,
    Demo.step (Demo.green_frame 60 20) (Demo.frozen (40, 40) 0) = Ok r st'
    /\ nav_instruction (navigation r) = "Target Reached"%string
    /\ target (glob st') <> target (glob (Demo.frozen (40, 40) 0))
    /\ navigate c 40 40 s = Ok (navigation r) st'
    /\ exists st'',
         navigate c 40 40 st' = Ok (navigation r) st''
         /\ glob st'' = glob st'
         /\ draws (env st'') = draws (env st').
Proof.
  eexists. eexists.
  destruct (navigator_idempotent Demo.cvt_pixel Demo.keep Demo.keep Demo.keep
              Demo.findContours (Demo.green_frame 60 20) (Demo.frozen (40, 40) 0)
              _ _ 1700000000%float
              ltac:(vm_compute; reflexivity) ltac:(intro n; reflexivity))
    as (c & s & Hnav & _ & Hagain & _).
  exists c, s. split; [vm_compute; reflexivity|].
  split; [reflexivity|]. split; [vm_compute; discriminate|].
  split; [exact Hnav|exact Hagain].
Defined.

Lemma centroid_is_box_centre_witness :
  exists b,
    select_blob [u_contour] = Some b
    /\ blob_rect b = (0, 0, 60, 60)
    /\ blob_centroid b = (30, 30)
    /\ exists x y w h,
         blob_rect b = (x, y, w, h)
         /\ blob_centroid b = (x + w / 2, y + h / 2)
         /\ 1 <= w /\ 1 <= h
         /\ x <= fst (blob_centroid b) < x + w
         /\ y <= snd (blob_centroid b) < y + h
         /\ exists c, In c [u_contour] /\ boundingRect c = (x, y, w, h).
Proof.
  eexists. split; [vm_compute; reflexivity|].
  split; [reflexivity|]. split; [reflexivity|].
  apply (proj1 centroid_is_box_centre [u_contour]). vm_compute. reflexivity.
Defined.


(* ================================================================== *)
(** * Further properties of the script *)

(** ** Drawing a target *)

(** X1.  With the margin of 50, [new_random_target] raises [ValueError]
    exactly when the frame is narrower or lower than 100 pixels; otherwise
    it returns, having used two random draws and left the globals and the
    clock alone. *)
Theorem new_random_target_small_frame (w h : Z) (st : state) :
  (new_random_target w h default_margin st = Raise ValueError
   <-> w < 100 \/ h < 100)
  /\ (100 <= w /\ 100 <= h <->
      exists t st',
        new_random_target w h default_margin st = Ok t st'
        /\ glob st' = glob st
        /\ draws (env st') = S (S (draws (env st)))
        /\ clock_reads (env st') = clock_reads (env st)).
Proof.
  unfold new_random_target, bind, randint, default_margin.
  destruct (w - 50 <? 50) eqn:Ew.
  - apply Z.ltb_lt in Ew. split.
    + split; [intros _; left; lia|reflexivity].
    + split; [intro; exfalso; lia|]. intros (t & st' & H & _). discriminate.
  - apply Z.ltb_ge in Ew. cbn.
    destruct (h - 50 <? 50) eqn:Eh.
    + apply Z.ltb_lt in Eh. split.
      * split; [intros _; right; lia|reflexivity].
      * split; [intro; exfalso; lia|]. intros (t & st' & H & _). discriminate.
    + apply Z.ltb_ge in Eh. split.
      * split; [discriminate|lia].
      * split; [|lia]. intros _. eexists. eexists.
        split; [reflexivity|]. cbn. repeat split.
Qed.

(** X2.  The margins are attained: every point with 50 <= x <= w - 50 and
    50 <= y <= h - 50, the border lines included, is the target drawn for
    some entropy. *)
Theorem every_inset_point_is_drawn (w h : Z) (t : Z * Z) (st : state) :
  in_bounds w h t ->
  exists tape st',
    new_random_target w h default_margin (with_entropy tape st) = Ok t st'.
Proof.
  destruct t as [tx ty]. unfold in_bounds, default_margin. cbn [fst snd].
  intros [Hx Hy].
  exists (fun n => if Nat.eqb n (draws (env st)) then tx - 50 else ty - 50).
  unfold new_random_target, bind, randint, with_entropy, default_margin.
  cbn [env glob entropy draws wall_clock clock_reads].
  destruct (w - 50 <? 50) eqn:Ew; [apply Z.ltb_lt in Ew; lia|].
  cbn [env glob entropy draws wall_clock clock_reads].
  destruct (h - 50 <? 50) eqn:Eh; [apply Z.ltb_lt in Eh; lia|].
  rewrite Nat.eqb_refl.
  replace (Nat.eqb (S (draws (env st))) (draws (env st))) with false
    by (symmetry; apply Nat.eqb_neq; lia).
  rewrite !Z.mod_small by lia.
  replace (50 + (tx - 50)) with tx by lia.
  replace (50 + (ty - 50)) with ty by lia.
  eexists. reflexivity.
Qed.

Lemma every_inset_point_is_drawn_witness :
  exists tape st',
    new_random_target 120 110 default_margin
      (with_entropy tape (initial_state Demo.world0)) = Ok (70, 50) st'.
Proof.
  apply (every_inset_point_is_drawn 120 110 (70, 50) (initial_state Demo.world0)).
  unfold in_bounds, default_margin. cbn. lia.
Defined.

(** ** Masks and contours *)

Lemma zip_with_map {A B C D : Type} (f : B -> C -> D) (g : A -> B) (k : A -> C)
  (l : list A) :
  zip_with f (map g l) (map k l) = map (fun x => f (g x) (k x)) l.
Proof. induction l as [|x l IH]; cbn; [reflexivity|]. rewrite IH. reflexivity. Qed.

Lemma lor_flags (a b : bool) :
  Z.lor (if a then 255 else 0) (if b then 255 else 0)
  = if a || (b || false) then 255 else 0.
Proof. destruct a, b; reflexivity. Qed.

Lemma bitwise_or_union hsv seen lo hi :
  bitwise_or (union_mask hsv seen) (inRange hsv lo hi)
  = union_mask hsv (seen ++ [(lo, hi)]).
Proof.
  unfold bitwise_or, union_mask, inRange. rewrite zip_with_map.
  apply map_ext. intro row. rewrite zip_with_map.
  apply map_ext. intro p. unfold in_some_range. rewrite existsb_app. cbn.
  apply lor_flags.
Qed.

Lemma build_mask_union hsv ranges seen :
  build_mask hsv ranges (Some (union_mask hsv seen))
  = Some (union_mask hsv (seen ++ ranges)).
Proof.
  revert seen. induction ranges as [|[lo hi] ranges IH]; intro seen; cbn.
  - rewrite app_nil_r. reflexivity.
  - rewrite bitwise_or_union, IH, <- app_assoc. reflexivity.
Qed.

Lemma build_mask_is_union hsv ranges :
  ranges <> [] -> build_mask hsv ranges None = Some (union_mask hsv ranges).
Proof.
  destruct ranges as [|[lo hi] ranges]; [contradiction|]. intros _. cbn.
  replace (inRange hsv lo hi) with (union_mask hsv [(lo, hi)]).
  - apply (build_mask_union hsv ranges [(lo, hi)]).
  - unfold union_mask, inRange, in_some_range. cbn.
    apply map_ext. intro row. apply map_ext. intro p.
    rewrite orb_false_r. reflexivity.
Qed.

(** X4.  The mask of a colour is the union of its ranges: for a colour
    with at least one range the mask has the shape of the image and is 255
    on the pixels that lie within some range and 0 on all others; a colour
    without a range has no mask. *)
Theorem colour_mask_is_union (hsv : image) (ranges : list hsv_range) :
  (ranges <> [] -> build_mask hsv ranges None = Some (union_mask hsv ranges))
  /\ (ranges = [] -> build_mask hsv ranges None = None)
  /\ List.length (union_mask hsv ranges) = List.length hsv
  /\ (forall row p, nth_error hsv row <> None ->
        nth_error (nth row hsv []) p <> None ->
        nth p (nth row (union_mask hsv ranges) []) 0
        = if in_some_range ranges (nth p (nth row hsv []) (0, 0, 0))
          then 255 else 0).
Proof.
  split; [|split; [|split]].
  - apply build_mask_is_union.
  - intros ->. reflexivity.
  - unfold union_mask. apply length_map.
  - intros row p Hrow Hp. unfold union_mask.
    set (paint := fun q : pixel => if in_some_range ranges q then 255 else 0).
    apply nth_error_Some in Hrow, Hp.
    rewrite (nth_indep _ [] (map paint []))
      by (rewrite length_map; exact Hrow).
    rewrite (map_nth (map paint)).
    rewrite (nth_indep _ 0 (paint (0, 0, 0)))
      by (rewrite length_map; exact Hp).
    rewrite (map_nth paint). reflexivity.
Qed.

Lemma colour_mask_is_union_witness :
  build_mask Demo.tiny_hsv
    [ ((0, 120, 70), (10, 255, 255)); ((170, 120, 70), (180, 255, 255)) ] None
  = Some [ [255; 0]; [255; 0] ].
Proof.
  rewrite (proj1 (colour_mask_is_union Demo.tiny_hsv
             [ ((0, 120, 70), (10, 255, 255));
               ((170, 120, 70), (180, 255, 255)) ]))
    by discriminate.
  reflexivity.
Defined.

Lemma max_by_area_keeps best rest :
  (forall c, In c rest -> (contourArea c <= contourArea best)%Q) ->
  max_by_area best rest = best.
Proof.
  revert best. induction rest as [|c rest IH]; intros best H; cbn; [reflexivity|].
  replace (Qltb (contourArea best) (contourArea c)) with false.
  - apply IH. intros c' Hin. apply H. right. exact Hin.
  - symmetry. apply Qltb_ge. apply H. left. reflexivity.
Qed.

Lemma max_by_area_first best pre c post :
  (contourArea best < contourArea c)%Q ->
  (forall c', In c' pre -> (contourArea c' < contourArea c)%Q) ->
  (forall c', In c' post -> (contourArea c' <= contourArea c)%Q) ->
  max_by_area best (pre ++ c :: post) = c.
Proof.
  revert best. induction pre as [|p pre IH]; intros best Hbest Hpre Hpost; cbn.
  - apply Qltb_lt in Hbest. rewrite Hbest. apply max_by_area_keeps. exact Hpost.
  - destruct (Qltb (contourArea best) (contourArea p)).
    + apply IH; [apply Hpre; left; reflexivity| |exact Hpost].
      intros c' Hin. apply Hpre. right. exact Hin.
    + apply IH; [exact Hbest| |exact Hpost].
      intros c' Hin. apply Hpre. right. exact Hin.
Qed.

(** X5.  Among contours of equal largest area the earliest wins: when every
    contour before [c] is strictly smaller than [c] and none after it is
    larger, the selector answers as if [c] were the only contour. *)
Theorem earliest_largest_contour_wins (pre post : list contour) (c : contour) :
  (forall c', In c' pre -> (contourArea c' < contourArea c)%Q) ->
  (forall c', In c' post -> (contourArea c' <= contourArea c)%Q) ->
  select_blob (pre ++ c :: post) = select_blob [c].
Proof.
  intros Hpre Hpost.
  assert (Hmax : match pre ++ c :: post with
                 | [] => False
                 | c0 :: rest => max_by_area c0 rest = c
                 end).
  { destruct pre as [|p pre]; cbn.
    - apply max_by_area_keeps. exact Hpost.
    - apply max_by_area_first; [apply Hpre; left; reflexivity| |exact Hpost].
      intros c' Hin. apply Hpre. right. exact Hin. }
  destruct (pre ++ c :: post) as [|c0 rest]; [contradiction|].
  rewrite !select_blob_cons. cbn zeta. rewrite Hmax. reflexivity.
Qed.

Lemma earliest_largest_contour_wins_witness :
  select_blob [Demo.box 10 10; Demo.box 89 9; Demo.box 9 89]
  = select_blob [Demo.box 89 9]
  /\ option_map blob_rect (select_blob [Demo.box 89 9]) = Some (0, 0, 90, 10).
Proof.
  split; [|reflexivity].
  apply (earliest_largest_contour_wins [Demo.box 10 10] [Demo.box 9 89]
           (Demo.box 89 9)).
  - intros c' [<-|[]]. reflexivity.
  - intros c' [<-|[]]. discriminate.
Defined.

(** ** One iteration of the loop *)

Lemma flip_horizontal_involutive (f : image) :
  flip_horizontal (flip_horizontal f) = f.
Proof.
  unfold flip_horizontal. rewrite map_map.
  rewrite <- (map_id f) at 2. apply map_ext. intro row. apply rev_involutive.
Qed.

Lemma direction_of_detected cx fw :
  direction_of cx fw <> "No Object Detected"%string.
Proof.
  unfold direction_of.
  destruct (3 * cx <? fw); [discriminate|].
  destruct (2 * fw <? 3 * cx); discriminate.
Qed.

Lemma instruction_of_navigates dx dy :
  instruction_of dx dy <> "No object to navigate"%string
  /\ instruction_of dx dy <> ""%string.
Proof.
  unfold instruction_of, horiz_of, vert_of.
  destruct (reach_threshold <? Z.abs dx), (reach_threshold <? Z.abs dy);
    destruct (0 <? dx), (0 <? dy); cbn; split; discriminate.
Qed.

Lemma reached_iff dx dy :
  reached dx dy = true <-> Z.abs dx <= 30 /\ Z.abs dy <= 30.
Proof.
  unfold reached. rewrite truthy_horiz, truthy_vert. unfold reach_threshold.
  rewrite andb_true_iff, !negb_true_iff, !Z.ltb_ge. reflexivity.
Qed.

Lemma hypot_int_at_reach dx dy :
  Z.abs dx <= 30 -> Z.abs dy <= 30 -> 0 <= hypot_int dx dy <= 42.
Proof.
  intros Hx Hy. destruct (hypot_int_spec dx dy) as (H0 & Hle & _).
  split; [exact H0|]. nia.
Qed.

Section MoreFrameFacts.

Variable cvt_pixel : pixel -> pixel.
Variable GaussianBlur erode dilate : mask -> mask.
Variable findContours : mask -> list contour.

Local Abbreviation cv_detect := (detect GaussianBlur erode dilate findContours).
Local Abbreviation cv_step := (step cvt_pixel GaussianBlur erode dilate findContours).
Local Abbreviation cv_run := (run cvt_pixel GaussianBlur erode dilate findContours).
Local Abbreviation cv_misses := (misses GaussianBlur erode dilate findContours).
Local Abbreviation cv_hits := (hits GaussianBlur erode dilate findContours).

(** The state a detection leaves: the frame size is rebound on a hit. *)
Lemma detect_state frame hsv cs st d st' :
  cv_detect frame hsv cs st = Ok d st' ->
  st' = match d with Some _ => sized frame st | None => st end.
Proof.
  intro H. apply detect_Ok in H. destruct d as [x|].
  - destruct H as (? & ? & ? & _ & _ & _ & _ & ->). reflexivity.
  - apply H.
Qed.

(** What is detected does not depend on the state. *)
Lemma detect_any_state frame hsv cs st d st' st2 :
  cv_detect frame hsv cs st = Ok d st' ->
  cv_detect frame hsv cs st2
  = Ok d (match d with Some _ => sized frame st2 | None => st2 end).
Proof.
  intro H. apply detect_Ok in H. destruct d as [x|].
  - destruct H as (pre & ranges & post & -> & Hpre & Hhit & Hdir & _).
    rewrite (detect_hit _ _ _ _ frame hsv pre _ post _ st2 Hpre Hhit).
    cbn [fst]. rewrite <- Hdir. destruct x. reflexivity.
  - destruct H as [Hall _]. apply detect_miss. exact Hall.
Qed.

(** On a table whose colours all have a range the detection returns. *)
Lemma detect_runs frame hsv cs st :
  (forall c, In c cs -> snd c <> []) ->
  exists d, cv_detect frame hsv cs st
            = Ok d (match d with Some _ => sized frame st | None => st end).
Proof.
  induction cs as [|[name ranges] cs IH]; intro Hne.
  - exists None. reflexivity.
  - cbn [detect].
    rewrite (build_mask_is_union hsv ranges)
      by (apply (Hne (name, ranges)); left; reflexivity).
    destruct (select_blob _) as [b|].
    + eexists (Some _). reflexivity.
    + apply IH. intros c Hin. apply Hne. right. exact Hin.
Qed.

(** A running process: the iteration in closed form. *)
Lemma step_running f st t :
  initialized (glob st) = true ->
  target (glob st) = Some t ->
  cv_step f st =
    if zero_sized f then Raise CvError
    else
      match cv_detect (flip_horizontal f)
                      (map (map cvt_pixel) (flip_horizontal f)) colors st with
      | Ok d s1 =>
          match navigate (centroid_of d) (fst t) (snd t) s1 with
          | Ok nav st' =>
              Ok (Render (direction_shown d) (option_map det_color d)
                         (option_map det_blob d) nav t) st'
          | Raise e => Raise e
          end
      | Raise e => Raise e
      end.
Proof.
  intros Hi Ht. unfold step, bind.
  rewrite (initialize_started _ _ Hi).
  unfold cv2_flip. destruct (zero_sized f) eqn:Hz; [reflexivity|].
  unfold cvtColor. rewrite zero_sized_flip, Hz. unfold ret at 1.
  destruct (detect _ _ _ _ _ _ _ _) as [d s1|e] eqn:Hdet; [|reflexivity].
  pose proof (detect_state _ _ _ _ _ _ Hdet) as Hs1.
  assert (Ht1 : target (glob s1) = Some t)
    by (rewrite Hs1; destruct d; exact Ht).
  rewrite (ensure_target_some _ _ Ht1). destruct t as [tx ty].
  cbn [fst snd]. unfold centroid_of.
  destruct (navigate _ tx ty s1) as [nav st'|e]; reflexivity.
Qed.

(** The first iteration: the start-up draw, then a regular iteration on
    the mirror image. *)
Lemma step_first f st :
  initialized (glob st) = false ->
  zero_sized f = false ->
  cv_step f st =
    match new_random_target (width f) (height f) default_margin (sized f st) with
    | Ok t s1 =>
        cv_step (flip_horizontal f)
          (State (Globals true (Some t) (target_reached_time (glob s1))
                          (frame_width (glob s1)) (frame_height (glob s1)))
                 (env s1))
    | Raise e => Raise e
    end.
Proof.
  intros Hi Hz. unfold step, bind.
  rewrite (initialize_fresh _ _ Hi Hz).
  destruct (new_random_target _ _ _ _) as [t s1|e]; [|reflexivity].
  rewrite initialize_started by reflexivity. reflexivity.
Qed.

(** The image a frame is examined on. *)
Lemma step_examines f st r st' :
  cv_step f st = Ok r st' ->
  exists s0 d s1,
    cv_detect (if initialized (glob st) then flip_horizontal f else f)
      (map (map cvt_pixel)
           (if initialized (glob st) then flip_horizontal f else f))
      colors s0 = Ok d s1
    /\ detected_color r = option_map det_color d
    /\ detected_blob r = option_map det_blob d
    /\ direction r = direction_shown d.
Proof.
  intro Hstep.
  destruct (step_Ok _ _ _ _ _ _ _ _ _ Hstep)
    as (f1 & s0 & d & s1 & t & s2 & nav & Hinit & _ & Hdet & _ & _ & ->).
  exists s0, d, s1. cbn. repeat split.
  destruct (initialized (glob st)) eqn:Hi.
  - rewrite (initialize_started _ _ Hi) in Hinit. inv_ok Hinit. exact Hdet.
  - destruct (zero_sized f) eqn:Hzf;
      [rewrite (initialize_empty _ _ Hi Hzf) in Hinit; discriminate|].
    rewrite (initialize_fresh _ _ Hi Hzf) in Hinit.
    destruct (new_random_target _ _ _ _); [|discriminate].
    inv_ok Hinit. rewrite flip_horizontal_involutive in Hdet. exact Hdet.
Qed.

(** X3.  The first frame of a run is examined as delivered, every later
    frame as its mirror image: at start-up the frame is flipped twice
    (lines 52 and 57).  Colour, blob and direction of a frame are those
    found on that image. *)
Theorem first_frame_not_mirrored f st r st' :
  cv_step f st = Ok r st' ->
  exists s0 d s1,
    cv_detect (if initialized (glob st) then flip_horizontal f else f)
      (map (map cvt_pixel)
           (if initialized (glob st) then flip_horizontal f else f))
      colors s0 = Ok d s1
    /\ detected_color r = option_map det_color d
    /\ detected_blob r = option_map det_blob d
    /\ direction r = direction_shown d.
Proof. exact (step_examines f st r st'). Qed.

(** A completed iteration, seen from a running process. *)
Lemma step_running_Ok f st t r st' :
  initialized (glob st) = true ->
  target (glob st) = Some t ->
  cv_step f st = Ok r st' ->
  exists d,
    zero_sized f = false
    /\ cv_detect (flip_horizontal f)
                 (map (map cvt_pixel) (flip_horizontal f)) colors st
       = Ok d (match d with Some _ => sized f st | None => st end)
    /\ navigate (centroid_of d) (fst t) (snd t)
                (match d with Some _ => sized f st | None => st end)
       = Ok (navigation r) st'
    /\ r = Render (direction_shown d) (option_map det_color d)
                  (option_map det_blob d) (navigation r) t.
Proof.
  intros Hi Ht. rewrite (step_running f st t Hi Ht).
  destruct (zero_sized f); [discriminate|].
  destruct (detect _ _ _ _ _ _ _ _) as [d s1|e] eqn:Hdet; [|discriminate].
  pose proof (detect_state _ _ _ _ _ _ Hdet) as Hs1.
  assert (Hsz : sized (flip_horizontal f) st = sized f st)
    by (unfold sized; rewrite width_flip, height_flip; reflexivity).
  rewrite Hsz in Hs1. subst s1.
  destruct (navigate _ _ _ _) as [nav s2|e] eqn:Hnav; [|discriminate].
  intro H. inv_ok H. exists d. repeat split; assumption.
Qed.

(** X6.  The reach is decided axis by axis: a frame with a blob reports
    "Target Reached" exactly when both |dx| <= 30 and |dy| <= 30, so the
    reach region is a square of side 61 around the target, and the distance
    reported with a reach is at most 42, not at most 30. *)
Theorem reach_is_per_axis f st r st' b :
  cv_step f st = Ok r st' ->
  detected_blob r = Some b ->
  let dx := fst (target_shown r) - fst (blob_centroid b) in
  let dy := snd (target_shown r) - snd (blob_centroid b) in
  (nav_instruction (navigation r) = "Target Reached"%string
   <-> Z.abs dx <= 30 /\ Z.abs dy <= 30)
  /\ (nav_instruction (navigation r) = "Target Reached"%string ->
      exists d, nav_dist (navigation r) = Some d /\ 0 <= d <= 42).
Proof.
  intros Hstep Hb.
  destruct (step_Ok _ _ _ _ _ _ _ _ _ Hstep)
    as (f1 & s0 & d & s1 & t & s2 & nav & _ & _ & _ & _ & Hnav & ->).
  cbn [target_shown navigation detected_blob] in *.
  destruct d as [x|]; [|discriminate]. cbn in Hb. inv_ok Hb.
  apply navigate_pure in Hnav. subst nav. cbn.
  destruct (blob_centroid (det_blob x)) as [cx cy]. cbn.
  assert (Hiff : instruction_of (fst t - cx) (snd t - cy) = "Target Reached"%string
                 <-> Z.abs (fst t - cx) <= 30 /\ Z.abs (snd t - cy) <= 30).
  { rewrite instruction_reached. apply reached_iff. }
  split; [exact Hiff|]. intro Hr. apply Hiff in Hr. destruct Hr as [Hx Hy].
  eexists. split; [reflexivity|]. apply hypot_int_at_reach; assumption.
Qed.

(** X7.  The four reports of a frame agree on whether an object was seen:
    no colour, no blob, the direction "No Object Detected", the instruction
    "No object to navigate" and the absence of a distance come together or
    not at all.  With a blob the direction is decided by the thirds of the
    width of the frame at hand, and the instruction is never left empty. *)
Theorem reports_agree_on_detection f st r st' :
  cv_step f st = Ok r st' ->
  (detected_color r = None <-> detected_blob r = None)
  /\ (direction r = "No Object Detected"%string <-> detected_blob r = None)
  /\ (nav_instruction (navigation r) = "No object to navigate"%string
      <-> detected_blob r = None)
  /\ (nav_dist (navigation r) = None <-> detected_blob r = None)
  /\ (forall b, detected_blob r = Some b ->
        direction r = direction_of (fst (blob_centroid b)) (width f))
  /\ nav_instruction (navigation r) <> ""%string.
Proof.
  intro Hstep.
  destruct (step_Ok _ _ _ _ _ _ _ _ _ Hstep)
    as (f1 & s0 & d & s1 & t & s2 & nav & Hinit & _ & Hdet & _ & Hnav & ->).
  cbn [direction detected_color detected_blob navigation].
  apply navigate_pure in Hnav. subst nav.
  assert (Hw : width (flip_horizontal f1) = width f).
  { rewrite width_flip. unfold initialize, bind, get_glob in Hinit.
    destruct (initialized (glob st)); [inv_ok Hinit; reflexivity|].
    unfold cv2_flip in Hinit. destruct (zero_sized f) eqn:Hzf; [discriminate|].
    cbn -[new_random_target] in Hinit.
    destruct (new_random_target _ _ _ _); [|discriminate].
    inv_ok Hinit. apply width_flip. }
  apply detect_Ok in Hdet. destruct d as [x|]; cbn.
  - destruct Hdet as (_ & _ & _ & _ & _ & _ & Hdir & _).
    destruct (blob_centroid (det_blob x)) as [cx cy] eqn:Hc. cbn.
    destruct (instruction_of_navigates (fst t - cx) (snd t - cy)) as [Hn He].
    repeat split; try discriminate; try contradiction.
    + intro H. rewrite Hdir in H. apply direction_of_detected in H. contradiction.
    + intros b Hb. inv_ok Hb. rewrite Hdir, Hw, Hc. reflexivity.
    + exact He.
  - repeat split; try discriminate.
Qed.

(** X8.  A running process is left as it was by a frame that does not
    report the reach: target, timestamp, clock position and random draws
    are untouched, and the only thing rebound, on a detection, is the frame
    size. *)
Theorem frame_without_reach_keeps_state f st r st' :
  running st ->
  cv_step f st = Ok r st' ->
  nav_instruction (navigation r) <> "Target Reached"%string ->
  st' = match detected_blob r with Some _ => sized f st | None => st end.
Proof.
  intros [Hi Ht] Hstep Hn.
  destruct (target (glob st)) as [t|] eqn:Et; [|contradiction].
  destruct (step_running_Ok _ _ _ _ _ Hi Et Hstep) as (d & _ & _ & Hnav & Hr).
  rewrite (navigate_not_reached _ _ _ _ _ _ Hnav Hn).
  rewrite Hr. cbn. destruct d; reflexivity.
Qed.

(** X9.  What a reach costs a running process: with the gate closed the
    clock is read once and nothing is drawn; with the gate open the clock
    is read twice and two random numbers are drawn.  The tapes themselves
    are never changed. *)
Theorem reach_frame_clock_and_draws f st r st' :
  running st ->
  cv_step f st = Ok r st' ->
  nav_instruction (navigation r) = "Target Reached"%string ->
  clock_reads (env st')
  = (clock_reads (env st)
     + if cooldown_elapsed (now_of st) (target_reached_time (glob st))
       then 2 else 1)%nat
  /\ draws (env st')
     = (draws (env st)
        + if cooldown_elapsed (now_of st) (target_reached_time (glob st))
          then 2 else 0)%nat
  /\ wall_clock (env st') = wall_clock (env st)
  /\ entropy (env st') = entropy (env st).
Proof.
  intros [Hi Ht] Hstep Hreach.
  destruct (target (glob st)) as [t|] eqn:Et; [|contradiction].
  destruct (step_running_Ok _ _ _ _ _ Hi Et Hstep) as (d & _ & _ & Hnav & _).
  pose proof (navigate_reached _ _ _ _ _ _ Hnav Hreach) as Hreg.
  set (s1 := match d with Some _ => sized f st | None => st end) in *.
  assert (He : env s1 = env st) by (unfold s1; destruct d; reflexivity).
  assert (Hg : target_reached_time (glob s1) = target_reached_time (glob st))
    by (unfold s1; destruct d; reflexivity).
  assert (Hnow : now_of s1 = now_of st) by (unfold now_of; rewrite He; reflexivity).
  rewrite <- Hnow, <- Hg, <- He.
  destruct (cooldown_elapsed (now_of s1) (target_reached_time (glob s1))) eqn:G.
  - rewrite (register_reach_pass _ G) in Hreg.
    destruct (new_random_target _ _ _ _) as [t1 s3|e] eqn:En; [|discriminate].
    inv_ok Hreg. apply new_random_target_Ok in En.
    destruct En as (_ & _ & Hent & Hd & Hw & Hc). cbn in *.
    rewrite Hent, Hd, Hw, Hc. repeat split; lia.
  - rewrite (register_reach_hold _ G) in Hreg. inv_ok Hreg. cbn.
    repeat split; lia.
Qed.

Lemma ensure_target_Ok st t st' :
  ensure_target st = Ok t st' ->
  target (glob st') = Some t
  /\ frame_width (glob st') = frame_width (glob st)
  /\ frame_height (glob st') = frame_height (glob st).
Proof.
  destruct (target (glob st)) as [t0|] eqn:Et.
  - rewrite (ensure_target_some _ _ Et). intro H. inv_ok H. auto.
  - rewrite (ensure_target_none _ Et).
    destruct (new_random_target _ _ _ _) as [t1 s1|e] eqn:En; [|discriminate].
    intro H. inv_ok H. apply new_random_target_Ok in En.
    destruct En as (_ & Hg & _). cbn. rewrite Hg. auto.
Qed.

(** X10.  A replacement target fits the frame at hand, whatever the sizes
    of earlier frames: a reach needs a blob, the blob rebinds the frame size
    to that of the current frame (line 89), and the new target is drawn for
    that size. *)
Theorem replacement_fits_current_frame f st r st' :
  cv_step f st = Ok r st' ->
  nav_instruction (navigation r) = "Target Reached"%string ->
  cooldown_elapsed (now_of st) (target_reached_time (glob st)) = true ->
  frame_width (glob st') = width f
  /\ frame_height (glob st') = height f
  /\ exists t, target (glob st') = Some t /\ in_bounds (width f) (height f) t.
Proof.
  intros Hstep Hreach G.
  destruct (step_Ok _ _ _ _ _ _ _ _ _ Hstep)
    as (f1 & s0 & d & s1 & t & s2 & nav & Hinit & _ & Hdet & Hens & Hnav & ->).
  destruct (before_navigate _ _ _ _ _ _ _ _ _ _ _ _ _ Hinit Hdet Hens)
    as (Hclk & Htime & _).
  cbn [navigation] in Hreach.
  assert (Hshape : width (flip_horizontal f1) = width f
                   /\ height (flip_horizontal f1) = height f).
  { rewrite width_flip, height_flip. unfold initialize, bind, get_glob in Hinit.
    destruct (initialized (glob st)); [inv_ok Hinit; auto|].
    unfold cv2_flip in Hinit. destruct (zero_sized f) eqn:Hzf; [discriminate|].
    cbn -[new_random_target] in Hinit.
    destruct (new_random_target _ _ _ _); [|discriminate].
    inv_ok Hinit. rewrite width_flip, height_flip. auto. }
  destruct Hshape as [Hw Hh].
  assert (Hd : d <> None).
  { intros ->. cbn in Hnav. inv_ok Hnav. discriminate. }
  pose proof (detect_state _ _ _ _ _ _ Hdet) as Hs1.
  destruct d as [x|]; [|contradiction].
  destruct (ensure_target_Ok _ _ _ Hens) as (_ & Hw2 & Hh2).
  rewrite Hs1 in Hw2, Hh2. cbn in Hw2, Hh2. rewrite Hw in Hw2. rewrite Hh in Hh2.
  pose proof (navigate_reached _ _ _ _ _ _ Hnav Hreach) as Hreg.
  rewrite register_reach_pass in Hreg
    by (rewrite (same_clock_now _ _ Hclk), Htime; exact G).
  destruct (new_random_target _ _ _ _) as [t1 s3|e1] eqn:En; [|discriminate].
  inv_ok Hreg. apply new_random_target_Ok in En.
  destruct En as (Hb & Hg & _). cbn. rewrite Hg. cbn.
  rewrite Hw2, Hh2 in Hb.
  split; [exact Hw2|]. split; [exact Hh2|]. exists t1. split; [reflexivity|exact Hb].
Qed.

Lemma navigate_keeps_running c tx ty st nav st' :
  initialized (glob st) = true -> target (glob st) <> None ->
  navigate c tx ty st = Ok nav st' ->
  running st'.
Proof.
  intros Hi Ht H.
  destruct (string_dec (nav_instruction nav) "Target Reached") as [E|E].
  - pose proof (navigate_reached _ _ _ _ _ _ H E) as Hreg.
    destruct (cooldown_elapsed (now_of st) (target_reached_time (glob st))) eqn:G.
    + rewrite (register_reach_pass _ G) in Hreg.
      destruct (new_random_target _ _ _ _) as [t1 s1|e] eqn:En; [|discriminate].
      inv_ok Hreg. apply new_random_target_Ok in En.
      destruct En as (_ & Hg & _). split; cbn; [|discriminate].
      rewrite Hg. exact Hi.
    + rewrite (register_reach_hold _ G) in Hreg. inv_ok Hreg.
      split; assumption.
  - rewrite (navigate_not_reached _ _ _ _ _ _ H E). split; assumption.
Qed.

(** X15.  Once a frame has been completed the process is initialised and
    holds a target, and every later completed frame keeps it so; no
    assumption on the sizes of the frames is needed. *)
Theorem target_always_present f st r st' :
  cv_step f st = Ok r st' -> running st'.
Proof.
  intro Hstep.
  destruct (step_Ok _ _ _ _ _ _ _ _ _ Hstep)
    as (f1 & s0 & d & s1 & t & s2 & nav & Hinit & _ & Hdet & Hens & Hnav & ->).
  destruct (before_navigate _ _ _ _ _ _ _ _ _ _ _ _ _ Hinit Hdet Hens)
    as (_ & _ & Htgt & Hi & _).
  apply (navigate_keeps_running _ _ _ _ _ _ Hi ltac:(congruence) Hnav).
Qed.

(** X11.  The target drawn on a frame is the one held before the frame:
    on the frame that registers a reach the old target is still shown, and
    the replacement appears on the next completed frame. *)
Theorem shown_target_is_previous f st r st' :
  running st ->
  cv_step f st = Ok r st' ->
  target (glob st) = Some (target_shown r).
Proof.
  intros [Hi Ht] Hstep.
  destruct (target (glob st)) as [t|] eqn:Et; [|contradiction].
  destruct (step_running_Ok _ _ _ _ _ Hi Et Hstep) as (d & _ & _ & _ & ->).
  reflexivity.
Qed.

(** X16.  What a frame shows of the object (colour, blob, direction) is a
    matter of the frame alone: two processes that are both past, or both
    at, their first frame report the same, whatever their targets, clocks
    and random draws. *)
Theorem detection_ignores_navigation_state f st1 r1 st1' st2 r2 st2' :
  initialized (glob st1) = initialized (glob st2) ->
  cv_step f st1 = Ok r1 st1' ->
  cv_step f st2 = Ok r2 st2' ->
  detected_color r1 = detected_color r2
  /\ detected_blob r1 = detected_blob r2
  /\ direction r1 = direction r2.
Proof.
  intros Hi H1 H2.
  destruct (step_examines _ _ _ _ H1)
    as (sa & d1 & sa' & Hd1 & Hc1 & Hb1 & Hdir1).
  destruct (step_examines _ _ _ _ H2)
    as (sb & d2 & sb' & Hd2 & Hc2 & Hb2 & Hdir2).
  rewrite <- Hi in Hd2.
  rewrite (detect_any_state _ _ _ _ _ _ sb Hd1) in Hd2.
  injection Hd2 as Hd _. subst d2.
  rewrite Hc1, Hc2, Hb1, Hb2, Hdir1, Hdir2. repeat split.
Qed.

Lemma navigate_runs c tx ty st :
  (c <> None ->
   100 <= frame_width (glob st) /\ 100 <= frame_height (glob st)) ->
  exists nav st', navigate c tx ty st = Ok nav st'.
Proof.
  intro Hsize. destruct c as [[cx cy]|]; [|eexists; eexists; reflexivity].
  rewrite navigate_some. cbn zeta.
  destruct (reached (tx - cx) (ty - cy)); [|eexists; eexists; reflexivity].
  destruct (cooldown_elapsed (now_of st) (target_reached_time (glob st))) eqn:G.
  - rewrite (register_reach_pass _ G).
    destruct (Hsize ltac:(discriminate)) as [Hw Hh].
    destruct (new_random_target_runs (frame_width (glob st))
                (frame_height (glob st)) (stamped st)) as (t & s1 & En);
      [unfold default_margin; lia|unfold default_margin; lia|].
    rewrite En. eexists. eexists. reflexivity.
  - rewrite (register_reach_hold _ G). eexists. eexists. reflexivity.
Qed.

Lemma large_not_zero_sized f :
  100 <= width f -> 100 <= height f -> zero_sized f = false.
Proof.
  intros Hw Hh. unfold zero_sized.
  destruct (height f =? 0) eqn:E1; [apply Z.eqb_eq in E1; lia|].
  destruct (width f =? 0) eqn:E2; [apply Z.eqb_eq in E2; lia|]. reflexivity.
Qed.

Lemma step_runs_running f st :
  running st -> 100 <= width f -> 100 <= height f ->
  exists r st', cv_step f st = Ok r st'.
Proof.
  intros [Hi Ht] Hw Hh.
  destruct (target (glob st)) as [t|] eqn:Et; [|contradiction].
  rewrite (step_running f st t Hi Et), (large_not_zero_sized f Hw Hh).
  destruct (detect_runs (flip_horizontal f)
              (map (map cvt_pixel) (flip_horizontal f)) colors st
              colors_ranges_nonempty) as (d & ->).
  destruct (navigate_runs (centroid_of d) (fst t) (snd t)
              (match d with
               | Some _ => sized (flip_horizontal f) st
               | None => st
               end)) as (nav & st' & ->).
  - destruct d as [x|]; [|intro H; contradiction].
    intros _. cbn. rewrite width_flip, height_flip. split; assumption.
  - eexists. eexists. reflexivity.
Qed.

Lemma step_runs f st :
  initialized (glob st) = false \/ running st ->
  100 <= width f -> 100 <= height f ->
  exists r st', cv_step f st = Ok r st'.
Proof.
  intros [Hi|Hrun] Hw Hh; [|apply step_runs_running; assumption].
  rewrite (step_first f st Hi (large_not_zero_sized f Hw Hh)).
  destruct (new_random_target_runs (width f) (height f) (sized f st))
    as (t & s1 & ->); [unfold default_margin; lia|unfold default_margin; lia|].
  apply step_runs_running.
  - split; [reflexivity|discriminate].
  - rewrite width_flip. exact Hw.
  - rewrite height_flip. exact Hh.
Qed.

(** X12.  A frame of at least 100 by 100 pixels is always completed: on
    the first frame and on every frame of a running process the iteration
    returns a result and raises nothing. *)
Theorem large_frames_are_completed f st :
  initialized (glob st) = false \/ running st ->
  100 <= width f -> 100 <= height f ->
  exists r st', cv_step f st = Ok r st'.
Proof. exact (step_runs f st). Qed.

(** X13.  At start-up the process dies exactly on frames narrower or lower
    than 100 pixels.  On a zero-sized frame it dies of [AttributeError]:
    [cv2.flip] returns [None] and line 53 reads [frame.shape] off it.  On
    any other such frame it dies of [ValueError], raised by
    [random.randint] for the first target (line 54).  It never dies of
    anything else, and a zero-sized frame is a frame under 100 pixels. *)
Theorem start_up_fails_on_small_frames f st :
  initialized (glob st) = false ->
  (cv_step f st = Raise AttributeError <-> zero_sized f = true)
  /\ (cv_step f st = Raise ValueError
      <-> zero_sized f = false /\ (width f < 100 \/ height f < 100))
  /\ ((exists e, cv_step f st = Raise e) <-> width f < 100 \/ height f < 100)
  /\ (forall e, cv_step f st = Raise e -> e = AttributeError \/ e = ValueError).
Proof.
  intro Hi.
  assert (Hempty : zero_sized f = true -> cv_step f st = Raise AttributeError).
  { intro Hz. unfold step, bind. rewrite (initialize_empty _ _ Hi Hz).
    reflexivity. }
  assert (Hsmall : zero_sized f = false -> width f < 100 \/ height f < 100 ->
                   cv_step f st = Raise ValueError).
  { intros Hz Hs. rewrite (step_first f st Hi Hz).
    unfold new_random_target, bind, randint, default_margin.
    destruct (width f - 50 <? 50) eqn:Ew; [reflexivity|].
    apply Z.ltb_ge in Ew. cbn [env glob].
    destruct (height f - 50 <? 50) eqn:Eh; [reflexivity|].
    apply Z.ltb_ge in Eh. lia. }
  assert (Hlarge : 100 <= width f -> 100 <= height f ->
                   forall e, cv_step f st <> Raise e).
  { intros Hw Hh e H.
    destruct (step_runs f st (or_introl Hi) Hw Hh) as (r & st' & E).
    congruence. }
  assert (Hzs : zero_sized f = true -> width f < 100 \/ height f < 100).
  { intro Hz. destruct (Z_lt_dec (width f) 100) as [?|Hw]; [left; assumption|].
    destruct (Z_lt_dec (height f) 100) as [?|Hh]; [right; assumption|].
    rewrite (large_not_zero_sized f) in Hz by lia. discriminate. }
  assert (Hcases : forall e, cv_step f st = Raise e ->
            (zero_sized f = true /\ e = AttributeError)
            \/ (zero_sized f = false /\ (width f < 100 \/ height f < 100)
                /\ e = ValueError)).
  { intros e H. destruct (zero_sized f) eqn:Hz.
    - left. rewrite (Hempty eq_refl) in H. inv_ok H. auto.
    - right. split; [reflexivity|].
      destruct (Z_lt_dec (width f) 100) as [?|Hw].
      + rewrite (Hsmall eq_refl) in H by (left; assumption). inv_ok H. auto.
      + destruct (Z_lt_dec (height f) 100) as [?|Hh].
        * rewrite (Hsmall eq_refl) in H by (right; assumption). inv_ok H. auto.
        * exfalso. apply (Hlarge ltac:(lia) ltac:(lia) e H). }
  split; [|split; [|split]].
  - split; [|exact Hempty]. intro H.
    destruct (Hcases _ H) as [[Hz _]|(_ & _ & E)]; [exact Hz|discriminate].
  - split.
    + intro H. destruct (Hcases _ H) as [[_ E]|(Hz & Hs & _)];
        [discriminate|split; assumption].
    + intros [Hz Hs]. apply Hsmall; assumption.
  - split.
    + intros [e H]. destruct (Hcases _ H) as [[Hz _]|(_ & Hs & _)];
        [apply Hzs; exact Hz|exact Hs].
    + intro Hs. destruct (zero_sized f) eqn:Hz.
      * exists AttributeError. apply Hempty. reflexivity.
      * exists ValueError. apply Hsmall; [reflexivity|exact Hs].
  - intros e H. destruct (Hcases _ H) as [[_ E]|(_ & _ & E)]; auto.
Qed.

(** X17.  A running process can die in two ways only: of [cv2.error] on a
    zero-sized frame, or of [ValueError] when a reach with the gate open
    asks for a new target in a frame narrower or lower than 100 pixels. *)
Theorem running_process_raises_only f st e :
  running st ->
  cv_step f st = Raise e ->
  (e = CvError /\ zero_sized f = true)
  \/ (e = ValueError /\ zero_sized f = false
      /\ (width f < 100 \/ height f < 100)
      /\ cooldown_elapsed (now_of st) (target_reached_time (glob st)) = true).
Proof.
  intros [Hi Ht] H.
  destruct (target (glob st)) as [t|] eqn:Et; [|contradiction].
  rewrite (step_running f st t Hi Et) in H.
  destruct (zero_sized f) eqn:Hz; [left; inv_ok H; auto|]. right.
  destruct (detect_runs (flip_horizontal f)
              (map (map cvt_pixel) (flip_horizontal f)) colors st
              colors_ranges_nonempty) as (d & Hd).
  rewrite Hd in H.
  set (s1 := match d with
             | Some _ => sized (flip_horizontal f) st
             | None => st
             end) in *.
  destruct (navigate (centroid_of d) (fst t) (snd t) s1) as [nav s2|e'] eqn:Hnav;
    [discriminate|].
  inv_ok H.
  destruct d as [x|]; [|discriminate].
  unfold centroid_of in Hnav. cbn [option_map] in Hnav.
  destruct (blob_centroid (det_blob x)) as [cx cy].
  rewrite navigate_some in Hnav. cbn zeta in Hnav.
  destruct (reached _ _); [|discriminate].
  assert (Hnow : now_of s1 = now_of st) by reflexivity.
  assert (Htime : target_reached_time (glob s1) = target_reached_time (glob st))
    by reflexivity.
  destruct (cooldown_elapsed (now_of s1) (target_reached_time (glob s1))) eqn:G.
  - rewrite (register_reach_pass _ G) in Hnav.
    destruct (new_random_target _ _ _ _) as [t1 s3|e1] eqn:En; [discriminate|].
    inv_ok Hnav. rewrite <- Hnow, <- Htime.
    split; [exact (new_random_target_Raise _ _ _ _ En)|].
    split; [reflexivity|]. split; [|exact G].
    destruct (Z_lt_dec (width f) 100) as [?|?]; [left; assumption|].
    destruct (Z_lt_dec (height f) 100) as [?|?]; [right; assumption|].
    exfalso. unfold s1 in En. cbn in En. rewrite width_flip, height_flip in En.
    destruct (new_random_target_runs (width f) (height f)
                (stamped (sized (flip_horizontal f) st)))
      as (t2 & s4 & E2); [unfold default_margin; lia|unfold default_margin; lia|].
    congruence.
  - rewrite (register_reach_hold _ G) in Hnav. discriminate.
Qed.

(** ** The loop *)

Lemma run_app_consumed a b st rs s1 :
  cv_run a st = (rs, FeedConsumed s1) ->
  cv_run (a ++ b) st = (rs ++ fst (cv_run b s1), snd (cv_run b s1)).
Proof.
  revert st rs. induction a as [|[|f quit] a IH]; intros st rs H.
  - cbn in H. injection H as <- <-. cbn. destruct (cv_run b st); reflexivity.
  - discriminate.
  - cbn in H |- *.
    destruct (step _ _ _ _ _ f st) as [r s2|e]; [|discriminate].
    destruct quit; [discriminate|].
    destruct (cv_run a s2) as [rs' fin] eqn:E.
    injection H as <- ->. rewrite (IH _ _ E). reflexivity.
Qed.

Lemma run_app_stopped a b st rs fin :
  cv_run a st = (rs, fin) ->
  (forall s, fin <> FeedConsumed s) ->
  cv_run (a ++ b) st = (rs, fin).
Proof.
  revert st rs. induction a as [|[|f quit] a IH]; intros st rs H Hfin.
  - cbn in H. injection H as <- <-. exfalso. apply (Hfin st). reflexivity.
  - cbn in H |- *. exact H.
  - cbn in H |- *.
    destruct (step _ _ _ _ _ f st) as [r s2|e]; [|exact H].
    destruct quit; [exact H|].
    destruct (cv_run a s2) as [rs' fin'] eqn:E.
    injection H as <- <-. rewrite (IH _ _ E Hfin). reflexivity.
Qed.

Lemma run_length feed st :
  (List.length (fst (cv_run feed st)) <= List.length feed)%nat.
Proof.
  revert st. induction feed as [|[|f quit] feed IH]; intro st; cbn; [lia|lia|].
  destruct (step _ _ _ _ _ f st) as [r s2|e]; cbn; [|lia].
  destruct quit; cbn; [lia|].
  specialize (IH s2). destruct (cv_run feed s2) as [rs' fin]. cbn in *. lia.
Qed.

(** X14.  The loop reads the captures in order and stops for good at the
    first missing frame, the first [q] and the first exception: what
    follows in the feed is never looked at.  As long as it goes on, running
    it on two feeds in a row is running it on their concatenation.  The
    frame on which [q] is pressed is still completed, and no frame is
    completed twice. *)
Theorem loop_stops_for_good a b st rs fin :
  cv_run a st = (rs, fin) ->
  (forall s1, fin = FeedConsumed s1 ->
     cv_run (a ++ b) st = (rs ++ fst (cv_run b s1), snd (cv_run b s1)))
  /\ ((forall s1, fin <> FeedConsumed s1) -> cv_run (a ++ b) st = (rs, fin))
  /\ (forall f r st', cv_step f st = Ok r st' ->
        cv_run (Frame f true :: b) st = ([r], QuitKey st'))
  /\ (List.length rs <= List.length a)%nat.
Proof.
  intro H. split; [|split; [|split]].
  - intros s1 ->. apply run_app_consumed. exact H.
  - apply run_app_stopped. exact H.
  - intros f r st' Hstep. cbn. rewrite Hstep. reflexivity.
  - pose proof (run_length a st) as L. rewrite H in L. exact L.
Qed.
End MoreFrameFacts.

(** ** The colour table and the selector *)

Ltac range_facts :=
  repeat match goal with
         | H : _ || _ = true |- _ => apply orb_true_iff in H; destruct H as [H|H]
         | H : _ && _ = true |- _ => apply andb_true_iff in H; destruct H as [? H]
         | H : (_ <=? _) = true |- _ => apply Z.leb_le in H
         | H : false = true |- _ => discriminate H
         end.

(** X18.  The colours of the table do not overlap: a pixel that lies
    within a range of one colour lies within no range of another, so the
    order of the table cannot decide which colour a pixel counts for. *)
Theorem colours_do_not_overlap (p : pixel) (n1 n2 : string)
  (r1 r2 : list hsv_range) :
  In (n1, r1) colors -> In (n2, r2) colors ->
  in_some_range r1 p = true -> in_some_range r2 p = true ->
  n1 = n2.
Proof.
  intros H1 H2 I1 I2. destruct p as [[h s] v].
  cbn in H1, H2.
  repeat (destruct H1 as [H1|H1]; [injection H1 as <- <-|]); try contradiction;
    repeat (destruct H2 as [H2|H2]; [injection H2 as <- <-|]);
    try contradiction; try reflexivity; exfalso;
    unfold in_some_range in I1, I2; cbn in I1, I2; range_facts; lia.
Qed.

Lemma colours_do_not_overlap_witness :
  In ("Green"%string, [ ((35, 100, 100), (85, 255, 255)) ]) colors
  /\ in_some_range [ ((35, 100, 100), (85, 255, 255)) ] Demo.green = true
  /\ forallb (fun c : string * list hsv_range =>
                String.eqb (fst c) "Green"
                || negb (in_some_range (snd c) Demo.green)) colors = true
  /\ "Green"%string = "Green"%string.
Proof.
  assert (Hin : In ("Green"%string, [ ((35, 100, 100), (85, 255, 255)) ]) colors)
    by (right; right; left; reflexivity).
  split; [exact Hin|]. split; [reflexivity|]. split; [reflexivity|].
  exact (colours_do_not_overlap Demo.green "Green" "Green" _ _ Hin Hin
           eq_refl eq_refl).
Defined.

(** X19.  Whether the selector accepts does not depend on the order in
    which the contours are listed, and neither does the area of the
    accepted blob; the order only picks among contours of equal area. *)
Theorem acceptance_is_order_free (l l' : list contour) :
  (forall c, In c l <-> In c l') ->
  (select_blob l = None <-> select_blob l' = None)
  /\ (forall b b', select_blob l = Some b -> select_blob l' = Some b' ->
        (blob_area b == blob_area b')%Q).
Proof.
  intro Hsame. split.
  - rewrite !select_blob_None. split; intros H c Hin; apply H, Hsame, Hin.
  - intros b b' E E'.
    destruct (select_blob_Some _ _ E) as (c & Hin & Hmax & _ & -> & _).
    destruct (select_blob_Some _ _ E') as (c' & Hin' & Hmax' & _ & -> & _).
    apply Qle_antisym.
    + apply Hmax'. apply Hsame. exact Hin.
    + apply Hmax. apply Hsame. exact Hin'.
Qed.

Lemma acceptance_is_order_free_witness :
  exists b b',
    select_blob [Demo.box 89 9; Demo.box 9 89] = Some b
    /\ select_blob [Demo.box 9 89; Demo.box 89 9] = Some b'
    /\ blob_rect b <> blob_rect b'
    /\ (blob_area b == blob_area b')%Q.
Proof.
  eexists. eexists. split; [reflexivity|]. split; [reflexivity|].
  split; [discriminate|].
  apply (proj2 (acceptance_is_order_free
                  [Demo.box 89 9; Demo.box 9 89] [Demo.box 9 89; Demo.box 89 9]
                  ltac:(intro c; cbn; tauto))); reflexivity.
Defined.

Lemma first_frame_not_mirrored_witness :
  exists r1 s1 r2 s2,
    Demo.step (Demo.green_frame 10 30) (initial_state Demo.world0) = Ok r1 s1
    /\ Demo.step (Demo.green_frame 10 30) s1 = Ok r2 s2
    /\ direction r1 = "Move Left"%string
    /\ direction r2 = "Move Right"%string
    /\ exists s0 d s1',
         detect Demo.keep Demo.keep Demo.keep Demo.findContours
           (Demo.green_frame 10 30)
           (map (map Demo.cvt_pixel) (Demo.green_frame 10 30)) colors s0
         = Ok d s1'
         /\ detected_blob r1 = option_map det_blob d.
Proof.
  eexists. eexists. eexists. eexists.
  split; [vm_compute; reflexivity|]. split; [vm_compute; reflexivity|].
  split; [reflexivity|]. split; [reflexivity|].
  destruct (first_frame_not_mirrored Demo.cvt_pixel Demo.keep Demo.keep Demo.keep
              Demo.findContours (Demo.green_frame 10 30)
              (initial_state Demo.world0) _ _ ltac:(vm_compute; reflexivity))
    as (s0 & d & s1' & Hdet & _ & Hb & _).
  exists s0, d, s1'. split; [exact Hdet|exact Hb].
Defined.

Lemma reach_is_per_axis_witness :
  exists r st' b,
    Demo.step (Demo.green_frame 60 20) (Demo.pinned (70, 70) 0) = Ok r st'
    /\ detected_blob r = Some b
    /\ blob_centroid b = (40, 40)
    /\ nav_instruction (navigation r) = "Target Reached"%string
    /\ nav_dist (navigation r) = Some 42
    /\ exists d, nav_dist (navigation r) = Some d /\ 0 <= d <= 42.
Proof.
  eexists. eexists. eexists. split; [vm_compute; reflexivity|].
  split; [reflexivity|]. split; [reflexivity|]. split; [reflexivity|].
  split; [reflexivity|].
  apply (proj2 (reach_is_per_axis Demo.cvt_pixel Demo.keep Demo.keep Demo.keep
                  Demo.findContours (Demo.green_frame 60 20)
                  (Demo.pinned (70, 70) 0) _ _ _
                  ltac:(vm_compute; reflexivity) ltac:(reflexivity))).
  reflexivity.
Defined.

Lemma reports_agree_on_detection_witness :
  exists r st',
    Demo.step (Demo.green_frame 70 60) (Demo.pinned (90, 30) 0) = Ok r st'
    /\ direction r = "Move Left"%string
    /\ (direction r = "No Object Detected"%string <-> detected_blob r = None).
Proof.
  eexists. eexists. split; [vm_compute; reflexivity|]. split; [reflexivity|].
  apply (reports_agree_on_detection Demo.cvt_pixel Demo.keep Demo.keep Demo.keep
           Demo.findContours (Demo.green_frame 70 60) (Demo.pinned (90, 30) 0)
           _ _ ltac:(vm_compute; reflexivity)).
Defined.

Lemma frame_without_reach_keeps_state_witness :
  exists r st',
    Demo.step (Demo.small_frame 10 4) (Demo.pinned (90, 30) 0) = Ok r st'
    /\ nav_instruction (navigation r) = "Move Right"%string
    /\ st' = sized (Demo.small_frame 10 4) (Demo.pinned (90, 30) 0).
Proof.
  eexists. eexists. split; [vm_compute; reflexivity|]. split; [reflexivity|].
  apply (frame_without_reach_keeps_state Demo.cvt_pixel Demo.keep Demo.keep
           Demo.keep Demo.findContours (Demo.small_frame 10 4)
           (Demo.pinned (90, 30) 0) _ _
           ltac:(split; [reflexivity|discriminate])
           ltac:(vm_compute; reflexivity) ltac:(discriminate)).
Defined.

Lemma reach_frame_clock_and_draws_witness :
  exists r st',
    Demo.step (Demo.green_frame 60 20) (Demo.pinned (40, 40) 0) = Ok r st'
    /\ clock_reads (env st') = 2%nat
    /\ draws (env st') = 2%nat
    /\ clock_reads (env st')
       = (clock_reads (env (Demo.pinned (40, 40)%Z 0))
          + if cooldown_elapsed (now_of (Demo.pinned (40, 40)%Z 0))
                 (target_reached_time (glob (Demo.pinned (40, 40)%Z 0)))
            then 2 else 1)%nat.
Proof.
  eexists. eexists. split; [vm_compute; reflexivity|].
  split; [reflexivity|]. split; [reflexivity|].
  apply (reach_frame_clock_and_draws Demo.cvt_pixel Demo.keep Demo.keep Demo.keep
           Demo.findContours (Demo.green_frame 60 20) (Demo.pinned (40, 40) 0)
           _ _ ltac:(split; [reflexivity|discriminate])
           ltac:(vm_compute; reflexivity) ltac:(reflexivity)).
Defined.

Lemma replacement_fits_current_frame_witness :
  exists r st' t,
    Demo.step (Demo.green_frame 60 20)
              (State (Globals true (Some (40, 40)) 0 999 999) Demo.world0)
    = Ok r st'
    /\ target (glob st') = Some t
    /\ frame_width (glob st') = 120
    /\ in_bounds 120 110 t.
Proof.
  destruct (replacement_fits_current_frame Demo.cvt_pixel Demo.keep Demo.keep
              Demo.keep Demo.findContours (Demo.green_frame 60 20)
              (State (Globals true (Some (40, 40)) 0 999 999) Demo.world0)
              _ _ ltac:(vm_compute; reflexivity) ltac:(reflexivity)
              ltac:(reflexivity))
    as (Hw & _ & t & Ht & Hb).
  eexists. eexists. exists t. split; [vm_compute; reflexivity|].
  split; [exact Ht|]. split; [exact Hw|exact Hb].
Defined.

Lemma shown_target_is_previous_witness :
  exists r st',
    Demo.step (Demo.green_frame 60 20) (Demo.pinned (40, 40) 0) = Ok r st'
    /\ target_shown r = (40, 40)
    /\ target (glob st') = Some (52, 58)
    /\ target (glob (Demo.pinned (40, 40) 0)) = Some (target_shown r).
Proof.
  eexists. eexists. split; [vm_compute; reflexivity|].
  split; [reflexivity|]. split; [reflexivity|].
  apply (shown_target_is_previous Demo.cvt_pixel Demo.keep Demo.keep Demo.keep
           Demo.findContours (Demo.green_frame 60 20) (Demo.pinned (40, 40) 0)
           _ _ ltac:(split; [reflexivity|discriminate])
           ltac:(vm_compute; reflexivity)).
Defined.

Lemma large_frames_are_completed_witness :
  exists r st', Demo.step Demo.blank_frame (initial_state Demo.world0) = Ok r st'.
Proof.
  apply (large_frames_are_completed Demo.cvt_pixel Demo.keep Demo.keep Demo.keep
           Demo.findContours Demo.blank_frame (initial_state Demo.world0)).
  - left. reflexivity.
  - vm_compute. discriminate.
  - vm_compute. discriminate.
Defined.

Lemma start_up_fails_on_small_frames_witness :
  Demo.step (Demo.small_frame 10 4) (initial_state Demo.world0) = Raise ValueError
  /\ Demo.step [] (initial_state Demo.world0) = Raise AttributeError.
Proof.
  split.
  - apply (proj1 (proj2 (start_up_fails_on_small_frames Demo.cvt_pixel Demo.keep
                           Demo.keep Demo.keep Demo.findContours
                           (Demo.small_frame 10 4) (initial_state Demo.world0)
                           eq_refl))).
    split; [vm_compute; reflexivity|]. left. vm_compute. reflexivity.
  - apply (proj1 (start_up_fails_on_small_frames Demo.cvt_pixel Demo.keep
                    Demo.keep Demo.keep Demo.findContours
                    [] (initial_state Demo.world0) eq_refl)).
    reflexivity.
Defined.

Lemma running_process_raises_only_witness :
  Demo.step (Demo.small_frame 10 4) (Demo.pinned (34, 24) 0) = Raise ValueError
  /\ (width (Demo.small_frame 10 4) < 100
      \/ height (Demo.small_frame 10 4) < 100).
Proof.
  assert (H : Demo.step (Demo.small_frame 10 4) (Demo.pinned (34, 24) 0)
              = Raise ValueError) by (vm_compute; reflexivity).
  split; [exact H|].
  destruct (running_process_raises_only Demo.cvt_pixel Demo.keep Demo.keep
              Demo.keep Demo.findContours (Demo.small_frame 10 4)
              (Demo.pinned (34, 24) 0) ValueError
              ltac:(split; [reflexivity|discriminate]) H)
    as [[E _]|(_ & _ & Hs & _)]; [discriminate|exact Hs].
Defined.

Lemma loop_stops_for_good_witness :
  exists rs st',
    Demo.run [Frame Demo.blank_frame false; NoFrame]
             (Demo.pinned (40, 40) 0) = (rs, CameraNotAccessible st')
    /\ Demo.run ([Frame Demo.blank_frame false; NoFrame]
                 ++ [Frame (Demo.green_frame 60 20) false])
                (Demo.pinned (40, 40) 0) = (rs, CameraNotAccessible st')
    /\ List.length rs = 1%nat.
Proof.
  eexists. eexists. split; [vm_compute; reflexivity|].
  split; [|reflexivity].
  apply (proj1 (proj2 (loop_stops_for_good Demo.cvt_pixel Demo.keep Demo.keep
                         Demo.keep Demo.findContours
                         [Frame Demo.blank_frame false; NoFrame]
                         [Frame (Demo.green_frame 60 20) false]
                         (Demo.pinned (40, 40) 0) _ _
                         ltac:(vm_compute; reflexivity)))).
  intros s1. discriminate.
Defined.

Lemma target_always_present_witness :
  exists r st',
    Demo.step (Demo.green_frame 70 60) (initial_state Demo.world0) = Ok r st'
    /\ running st'.
Proof.
  eexists. eexists. split; [vm_compute; reflexivity|].
  apply (target_always_present Demo.cvt_pixel Demo.keep Demo.keep Demo.keep
           Demo.findContours (Demo.green_frame 70 60) (initial_state Demo.world0)
           _ _ ltac:(vm_compute; reflexivity)).
Defined.

Lemma detection_ignores_navigation_state_witness :
  exists r1 s1 r2 s2,
    Demo.step (Demo.small_frame 10 4) (Demo.pinned (90, 30) 0) = Ok r1 s1
    /\ Demo.step (Demo.small_frame 10 4) (Demo.frozen (34, 80) 5) = Ok r2 s2
    /\ nav_instruction (navigation r1) <> nav_instruction (navigation r2)
    /\ detected_blob r1 = detected_blob r2
    /\ direction r1 = direction r2.
Proof.
  eexists. eexists. eexists. eexists.
  split; [vm_compute; reflexivity|]. split; [vm_compute; reflexivity|].
  split; [discriminate|].
  apply (detection_ignores_navigation_state Demo.cvt_pixel Demo.keep Demo.keep
           Demo.keep Demo.findContours (Demo.small_frame 10 4)
           (Demo.pinned (90, 30) 0) _ _ (Demo.frozen (34, 80) 5) _ _
           eq_refl ltac:(vm_compute; reflexivity) ltac:(vm_compute; reflexivity)).
Defined.

(* ================================================================== *)
(** * The first reach of a run *)

Lemma new_random_target_value w h st t st' :
  new_random_target w h default_margin st = Ok t st' ->
  t = drawn_target w h (entropy (env st)) (draws (env st)).
Proof.
  unfold new_random_target, bind, randint, drawn_target.
  destruct (w - default_margin <? default_margin); [discriminate|].
  cbn [env glob entropy draws].
  destruct (h - default_margin <? default_margin); [discriminate|].
  intro H. inv_ok H. reflexivity.
Qed.

Section FirstReach.

Variable cvt_pixel : pixel -> pixel.
Variable GaussianBlur erode dilate : mask -> mask.
Variable findContours : mask -> list contour.

Local Abbreviation cv_step := (step cvt_pixel GaussianBlur erode dilate findContours).
Local Abbreviation cv_run := (run cvt_pixel GaussianBlur erode dilate findContours).

Lemma step_leaves_running f st r st' :
  cv_step f st = Ok r st' -> running st'.
Proof.
  intro Hstep.
  destruct (step_Ok _ _ _ _ _ _ _ _ _ Hstep)
    as (f1 & s0 & d & s1 & t & s2 & nav & Hinit & _ & Hdet & Hens & Hnav & ->).
  destruct (before_navigate _ _ _ _ _ _ _ _ _ _ _ _ _ Hinit Hdet Hens)
    as (_ & _ & Htgt & Hi & _).
  apply (navigate_keeps_running _ _ _ _ _ _ Hi ltac:(congruence) Hnav).
Qed.

(** As long as the loop goes on it is at its start or running. *)
Lemma run_from_start feed st0 rs st :
  cv_run feed st0 = (rs, FeedConsumed st) -> st = st0 \/ running st.
Proof.
  revert st0 rs. induction feed as [|[|f quit] feed IH]; intros st0 rs H.
  - cbn in H. injection H as _ <-. left. reflexivity.
  - discriminate.
  - apply run_cons_consumed in H.
    destruct H as (r & s1 & rs' & Hstep & _ & Hrun & _).
    right. destruct (IH _ _ Hrun) as [->|Hr]; [|exact Hr].
    exact (step_leaves_running _ _ _ _ Hstep).
Qed.

(** The state a running process is left in by a reach with the gate open,
    written out. *)
Lemma reach_with_open_gate f st r st' :
  running st ->
  cooldown_elapsed (now_of st) (target_reached_time (glob st)) = true ->
  cv_step f st = Ok r st' ->
  nav_instruction (navigation r) = "Target Reached"%string ->
  st' = State (Globals true
                 (Some (drawn_target (width f) (height f)
                          (entropy (env st)) (draws (env st))))
                 (stamp_of st) (width f) (height f))
              (World (entropy (env st)) (S (S (draws (env st))))
                     (wall_clock (env st)) (S (S (clock_reads (env st)))))
  /\ in_bounds (width f) (height f)
       (drawn_target (width f) (height f) (entropy (env st)) (draws (env st))).
Proof.
  intros [Hi Ht] G Hstep Hreach.
  destruct (target (glob st)) as [t|] eqn:Et; [|contradiction].
  destruct (step_running_Ok _ _ _ _ _ _ _ _ _ _ Hi Et Hstep)
    as (d & _ & _ & Hnav & Hr).
  destruct d as [x|];
    [|cbn in Hnav; injection Hnav as Hn _; rewrite <- Hn in Hreach;
      discriminate].
  pose proof (navigate_reached _ _ _ _ _ _ Hnav Hreach) as Hreg.
  rewrite register_reach_pass in Hreg by exact G.
  destruct (new_random_target _ _ _ _) as [t1 s3|e1] eqn:En; [|discriminate].
  injection Hreg as <-.
  pose proof (new_random_target_value _ _ _ _ _ En) as Hv.
  destruct (new_random_target_Ok _ _ _ _ _ En)
    as (Hb & Hg & Hent & Hd & Hw & Hc).
  cbn in Hv, Hb, Hg, Hent, Hd, Hw, Hc.
  destruct s3 as [g3 [ent3 d3 w3 c3]]. cbn in Hg, Hent, Hd, Hw, Hc |- *.
  subst g3 ent3 d3 w3 c3 t1. cbn. rewrite Hi.
  split; [reflexivity|exact Hb].
Qed.

(** C10.  The timestamp is 0 when the process starts and stays 0 while
    no frame reports the reach.  On the first frame that does, with a
    clock reading beyond the cooldown (any wall clock later than 0.8 s
    after the epoch), the gate is open and the reach is registered at once:
    the timestamp becomes the next clock reading, the clock has been read
    twice, and the target is replaced by the point that the next two
    entropy words give for the size of this frame, which lies within its
    margins.  [n] is the number of draws made before the replacement: the
    two of the start-up target come first when this is the first frame. *)
Theorem first_reach_not_delayed e feed rs st f r st' :
  cv_run feed (initial_state e) = (rs, FeedConsumed st) ->
  (forall r0, In r0 rs ->
              nav_instruction (navigation r0) <> "Target Reached"%string) ->
  cv_step f st = Ok r st' ->
  nav_instruction (navigation r) = "Target Reached"%string ->
  (target_reached_cooldown <? now_of st)%float = true ->
  let n := (draws (env st) + if initialized (glob st) then 0 else 2)%nat in
  let t := drawn_target (width f) (height f) (entropy (env st)) n in
  target_reached_time (glob st) = 0%float
  /\ cooldown_elapsed (now_of st) (target_reached_time (glob st)) = true
  /\ target_reached_time (glob st') = stamp_of st
  /\ target (glob st') = Some t
  /\ in_bounds (width f) (height f) t
  /\ draws (env st') = S (S n)
  /\ clock_reads (env st') = S (S (clock_reads (env st)))
  /\ st' = State (Globals true (Some t) (stamp_of st) (width f) (height f))
                 (World (entropy (env st)) (S (S n))
                        (wall_clock (env st)) (S (S (clock_reads (env st)))))
  /\ (initialized (glob st) = true ->
      target (glob st) = Some (target_shown r)).
Proof.
  intros Hrun Hall Hstep Hreach Hclock n t.
  pose proof (run_no_reach _ _ _ _ _ _ _ _ _ Hrun Hall) as Hzero.
  cbn in Hzero.
  assert (G : cooldown_elapsed (now_of st) (target_reached_time (glob st)) = true).
  { rewrite Hzero. unfold cooldown_elapsed.
    rewrite F64.sub_zero. exact Hclock. }
  assert (Hst' : st' = State (Globals true (Some t) (stamp_of st)
                                      (width f) (height f))
                             (World (entropy (env st)) (S (S n))
                                    (wall_clock (env st))
                                    (S (S (clock_reads (env st)))))
                 /\ in_bounds (width f) (height f) t).
  { destruct (run_from_start _ _ _ _ Hrun) as [->|Hr].
    - (* the first frame of the run *)
      destruct (step_Ok _ _ _ _ _ _ _ _ _ Hstep) as (_ & _ & _ & _ & _ & _ & _
                                                    & _ & Hz & _).
      rewrite (step_first _ _ _ _ _ f (initial_state e) eq_refl Hz) in Hstep.
      destruct (new_random_target _ _ _ _) as [t0 s1|e0] eqn:En; [|discriminate].
      destruct (new_random_target_Ok _ _ _ _ _ En)
        as (_ & Hg & Hent & Hd & Hw & Hc).
      destruct s1 as [g1 [ent1 d1 w1 c1]].
      cbn in Hg, Hent, Hd, Hw, Hc. subst g1 ent1 d1 w1 c1.
      cbn [glob env target_reached_time frame_width frame_height sized
           initial_state initial_globals initialized target] in Hstep.
      apply reach_with_open_gate in Hstep;
        [|split; [reflexivity|discriminate]|exact G|exact Hreach].
      revert Hstep. unfold t, n, stamp_of, now_of.
      cbn [glob env initial_state initial_globals initialized entropy draws
           wall_clock clock_reads].
      rewrite width_flip, height_flip.
      replace (draws e + 2)%nat with (S (S (draws e))) by lia.
      intro H. exact H.
    - destruct (reach_with_open_gate _ _ _ _ Hr G Hstep Hreach) as [E Hb].
      revert E Hb. unfold t, n. destruct Hr as [Hi _]. rewrite Hi.
      rewrite Nat.add_0_r. intros E Hb. split; [exact E|exact Hb]. }
  destruct Hst' as [Hst' Hb].
  assert (Hshown : initialized (glob st) = true ->
                   target (glob st) = Some (target_shown r)).
  { intro Hi.
    destruct (run_from_start _ _ _ _ Hrun) as [E|Hr];
      [rewrite E in Hi; discriminate Hi|].
    destruct Hr as [_ Ht].
    destruct (target (glob st)) as [t0|] eqn:Et; [|contradiction].
    destruct (step_running_Ok _ _ _ _ _ _ _ _ _ _ Hi Et Hstep)
      as (d & _ & _ & _ & ->).
    reflexivity. }
  split; [exact Hzero|]. split; [exact G|].
  rewrite Hst'. cbn [glob env target target_reached_time draws clock_reads].
  split; [reflexivity|]. split; [reflexivity|]. split; [exact Hb|].
  split; [reflexivity|]. split; [reflexivity|].
  split; [reflexivity|exact Hshown].
Qed.

End FirstReach.

Lemma first_reach_not_delayed_witness :
  exists rs st r st',
    Demo.run [Frame (Demo.green_frame 70 60) false] (initial_state Demo.world0)
    = (rs, FeedConsumed st)
    /\ map (fun r0 => nav_instruction (navigation r0)) rs = ["Move Left"%string]
    /\ Demo.step (Demo.green_frame 48 38) st = Ok r st'
    /\ nav_instruction (navigation r) = "Target Reached"%string
    /\ target (glob st) = Some (52, 58)
    /\ target_reached_time (glob st) = 0%float
    /\ target_reached_time (glob st') = stamp_of st
    /\ target (glob st') = Some (56, 56)
    /\ target (glob st')
       = Some (drawn_target 120 110 (entropy (env st)) (draws (env st) + 0)).
Proof.
  eexists. eexists. eexists. eexists.
  split; [vm_compute; reflexivity|]. split; [reflexivity|].
  split; [vm_compute; reflexivity|]. split; [reflexivity|].
  split; [reflexivity|].
  destruct (first_reach_not_delayed Demo.cvt_pixel Demo.keep Demo.keep Demo.keep
              Demo.findContours Demo.world0
              [Frame (Demo.green_frame 70 60) false] _ _
              (Demo.green_frame 48 38) _ _
              ltac:(vm_compute; reflexivity)
              ltac:(intros r0 [<-|[]]; discriminate)
              ltac:(vm_compute; reflexivity)
              ltac:(reflexivity)
              ltac:(reflexivity))
    as (H0 & _ & Hs & Ht & _).
  split; [exact H0|]. split; [exact Hs|]. split; [reflexivity|exact Ht].
Defined.
